(** * pubchem_parser: name filter, store and ingestion loop

    A shallow embedding of [pubchem_parser.py] and the properties of its
    three layers: the name filter ([filter_names]), the SQLite-backed store
    (class [Database]) and the ingestion loop ([get_compound], [run_cids]).

    Modelling conventions.
    - A Python [str] is a [string]; its characters are 8-bit, a range in
      which the regex class [\d] is exactly the ten characters 0 to 9.
    - A Python [int] is a [Z].
    - A table is the list of its rows, the newest last, which for the two
      autoincrement tables is rowid order; [fetchone] is the first row
      that matches.  An absent table and an empty one are the same state,
      so [create] changes no table.
    - Every SQL statement is read as the statement with its values bound
      as parameters: the interpolated text is taken to denote the value
      that was interpolated.
    - Each [with sq.connect(...)] block may raise; which ones do is given
      by a schedule of faults carried in the world and consumed one entry
      per block. *)

From Stdlib Require Import ZArith Ascii String Bool Lia.
From stdpp Require Import base list list_numbers strings.

Local Open Scope string_scope.
Local Open Scope list_scope.
Local Open Scope Z_scope.

(** ** Python values and strings *)

(** The elements of the synonym list handed to [filter_names]: strings, and
    whatever else the remote record may hold. *)
Inductive pyval : Type :=
  | PyStr (s : string)
  | PyInt (z : Z)
  | PyFloat (mantissa exponent : Z)
  | PyBool (b : bool)
  | PyNone.

(** [isinstance(v, str)], returning the string when it is one. *)
Definition isinstance_str (v : pyval) : option string :=
  match v with
  | PyStr s => Some s
  | _ => None
  end.

(** The double-quote character. *)
Definition dquote : ascii := "034"%char.

(** Truthiness of a [str]: non-empty. *)
Definition str_truthy (s : string) : bool :=
  match s with
  | EmptyString => false
  | String _ _ => true
  end.

(** [s[start:stop]] with Python's treatment of negative and out-of-range
    bounds. *)
Definition slice (start stop : Z) (s : string) : string :=
  let n := Z.of_nat (String.length s) in
  let norm (i : Z) := if i <? 0 then Z.max 0 (i + n) else Z.min i n in
  let lo := norm start in
  let hi := norm stop in
  substring (Z.to_nat lo) (Z.to_nat (hi - lo)) s.

(** [s.startswith(p)] *)
Definition startswith (p s : string) : bool := String.prefix p s.

(** [s.endswith(p)] *)
Definition endswith (p s : string) : bool :=
  let n := String.length s in
  let m := String.length p in
  (m <=? n)%nat && String.eqb (substring (n - m) m s) p.

(** ** Regular expressions

    The fragment of [re] that the pattern of [filter_names] uses, with
    matching by derivatives. *)

Inductive regex : Type :=
  | Void
  | Eps
  | Class (p : ascii -> bool)
  | Seq (r1 r2 : regex)
  | Alt (r1 r2 : regex)
  | Star (r : regex).

Fixpoint nullable (r : regex) : bool :=
  match r with
  | Void => false
  | Eps => true
  | Class _ => false
  | Seq r1 r2 => nullable r1 && nullable r2
  | Alt r1 r2 => nullable r1 || nullable r2
  | Star _ => true
  end.

Fixpoint deriv (c : ascii) (r : regex) : regex :=
  match r with
  | Void => Void
  | Eps => Void
  | Class p => if p c then Eps else Void
  | Seq r1 r2 =>
      if nullable r1
      then Alt (Seq (deriv c r1) r2) (deriv c r2)
      else Seq (deriv c r1) r2
  | Alt r1 r2 => Alt (deriv c r1) (deriv c r2)
  | Star r1 => Seq (deriv c r1) (Star r1)
  end.

(** Some prefix of [s] matches [r]: [re.match]. *)
Fixpoint re_match (r : regex) (s : string) : bool :=
  nullable r ||
  match s with
  | EmptyString => false
  | String c t => re_match (deriv c r) t
  end.

(** Some substring of [s] matches [r]: [re.search], as a truth value. *)
Fixpoint re_search (r : regex) (s : string) : bool :=
  re_match r s ||
  match s with
  | EmptyString => false
  | String _ t => re_search r t
  end.

(** [r{n,}] *)
Fixpoint at_least (n : nat) (r : regex) : regex :=
  match n with
  | O => Star r
  | S n' => Seq r (at_least n' r)
  end.

(** [\d] *)
Definition is_digit (c : ascii) : bool :=
  let n := nat_of_ascii c in (48 <=? n)%nat && (n <=? 57)%nat.

Definition Chr (c : ascii) : regex := Class (Ascii.eqb c).

(** [re.compile(r'(\d{2,}|, )')] *)
Definition pattern : regex :=
  Alt (at_least 2 (Class is_digit)) (Seq (Chr ","%char) (Chr " "%char)).

(** ** filter_names *)

(** The loop over [enumerate(filtered_names)]: the list iterator reads
    position [i] of the list as it is at that moment and stops past its
    end; [fuel] bounds the number of iterations. *)
Fixpoint unquote_loop (fuel i : nat) (filtered_names : list string)
  : list string :=
  match fuel with
  | O => filtered_names
  | S fuel' =>
      match filtered_names !! i with
      | None => filtered_names
      | Some name =>
          unquote_loop fuel' (S i)
            (if startswith (String dquote EmptyString) name
                && endswith (String dquote EmptyString) name
             then <[i := slice 1 (-1) name]> filtered_names
             else filtered_names)
      end
  end.

Definition filter_names (names : list pyval) : list string :=
  let filtered_names := omap isinstance_str names in
  let filtered_names :=
    List.filter (fun s => negb (re_search pattern s)) filtered_names in
  unquote_loop (List.length filtered_names) 0 filtered_names.

(** ** The dataclass and the tables *)

Record Compound : Type := {
  cid : Z;
  smiles : string;
  iupac_name : string;
  trivial_names : list string
}.

(** Table Compounds: CID (primary key), IUPAC, Smiles. *)
Record compounds_row : Type := {
  CID : Z;
  IUPAC : string;
  Smiles : string
}.

(** Table TrivialNames: ID (primary key, autoincrement), Name. *)
Record names_row : Type := {
  ID : Z;
  Name : string
}.

(** Table CIDNameMatches: ID (primary key, autoincrement), NameID, CID. *)
Record matches_row : Type := {
  match_ID : Z;
  match_NameID : Z;
  match_CID : Z
}.

(** The file [pubchem.db]: the three tables, the newest row last, and the
    two autoincrement counters that SQLite keeps in [sqlite_sequence]. *)
Record database : Type := {
  Compounds : list compounds_row;
  TrivialNames : list names_row;
  CIDNameMatches : list matches_row;
  seq_TrivialNames : Z;
  seq_CIDNameMatches : Z
}.

Definition empty_database : database :=
  {| Compounds := []; TrivialNames := []; CIDNameMatches := [];
     seq_TrivialNames := 0; seq_CIDNameMatches := 0 |}.

(** The rowid an autoincrement table gives its next row: one more than the
    largest rowid the table ever held. *)
Definition next_rowid (seq : Z) (ids : list Z) : Z :=
  Z.max seq (foldr Z.max 0 ids) + 1.

(** ** Exceptions, output and the world *)

Inductive exn : Type :=
  | OperationalError
  | IntegrityError
  | PubChemError
  | TypeError.

Inductive outcome (A : Type) : Type :=
  | Ok (a : A)
  | Raise (e : exn).
Arguments Ok {A} a.
Arguments Raise {A} e.

(** What the program prints, one constructor per [print] call. *)
Inductive line : Type :=
  | RunStarting
  | FromCount (start_cid count : Z)
  | ErrorFetching (cid : Z) (ex : exn)
  | ErrorWriting (ex : exn)
  | CidOk (cid : Z)
  | CidNotAdded (cid : Z)
  | RunFinished
  | ReportLine (ok not_added : Z)
  | BrokenCids (broken_cids : list Z).

(** The record [pcp.Compound.from_cid] answers with.  [synonyms = None]
    stands for a synonym list whose retrieval or traversal raises. *)
Record pcp_Compound : Type := {
  canonical_smiles : option string;
  pcp_iupac_name : option string;
  synonyms : option (list pyval)
}.

Record world : Type := {
  db : database;
  faults : list bool;
  requests : list Z;
  stdout : list line
}.

Definition set_db (d : database) (w : world) : world :=
  {| db := d; faults := faults w; requests := requests w;
     stdout := stdout w |}.

Definition set_faults (fs : list bool) (w : world) : world :=
  {| db := db w; faults := fs; requests := requests w; stdout := stdout w |}.

(** ** The monad of the program: state and exceptions *)

Definition M (A : Type) : Type := world -> outcome A * world.

Definition ret {A} (a : A) : M A := fun w => (Ok a, w).

Definition bind {A B} (m : M A) (k : A -> M B) : M B :=
  fun w =>
    match m w with
    | (Ok a, w') => k a w'
    | (Raise e, w') => (Raise e, w')
    end.

Definition raise {A} (e : exn) : M A := fun w => (Raise e, w).

(** [try: body / except Exception as ex: handler(ex)] *)
Definition try_except {A} (body : M A) (handler : exn -> M A) : M A :=
  fun w =>
    match body w with
    | (Ok a, w') => (Ok a, w')
    | (Raise e, w') => handler e w'
    end.

Declare Scope py_scope.
Delimit Scope py_scope with py.
Notation "x <- m ;; k" := (bind m (fun x => k))
  (at level 100, m at next level, right associativity) : py_scope.
Notation "m ;; k" := (bind m (fun _ => k))
  (at level 100, right associativity) : py_scope.
Local Open Scope py_scope.

(** [for x in l: acc = body(acc, x)] *)
Fixpoint for_in {A S} (l : list A) (body : S -> A -> M S) (acc : S) : M S :=
  match l with
  | [] => ret acc
  | x :: l' => acc' <- body acc x ;; for_in l' body acc'
  end.

Definition print (ln : line) : M unit :=
  fun w =>
    (Ok tt, {| db := db w; faults := faults w; requests := requests w;
               stdout := stdout w ++ [ln] |}).

(** One [with sq.connect(Database.db_name) as con:] block running one
    statement.  The block raises when the fault schedule says so; a
    statement that raises leaves the tables as they were. *)
Definition connect {A} (stmt : database -> outcome (A * database)) : M A :=
  fun w =>
    let w' := set_faults (tail (faults w)) w in
    match faults w with
    | true :: _ => (Raise OperationalError, w')
    | _ =>
        match stmt (db w) with
        | Ok (a, d) => (Ok a, set_db d w')
        | Raise e => (Raise e, w')
        end
    end.

(** ** class Database *)

Module Database.

(** *** The statements, as functions of the tables *)

(** [SELECT MAX(CID) FROM Compounds] *)
Definition select_max_cid (d : database) : option Z :=
  match Compounds d with
  | [] => None
  | r :: rows => Some (foldr Z.max (CID r) (CID <$> rows))
  end.

(** [SELECT ID FROM TrivialNames WHERE Name == name], then [fetchone()] *)
Definition select_name_id (name : string) (d : database) : option Z :=
  ID <$> head (List.filter (fun r => String.eqb (Name r) name)
                 (TrivialNames d)).

(** [SELECT CID FROM Compounds WHERE CID == cid], then [fetchone()] *)
Definition select_cid (c : Z) (d : database) : option Z :=
  CID <$> head (List.filter (fun r => CID r =? c) (Compounds d)).

(** [INSERT INTO TrivialNames(Name) VALUES(name)] *)
Definition sql_insert_trivial_name (name : string) (d : database)
  : database :=
  let i := next_rowid (seq_TrivialNames d) (ID <$> TrivialNames d) in
  {| Compounds := Compounds d;
     TrivialNames := TrivialNames d ++ [{| ID := i; Name := name |}];
     CIDNameMatches := CIDNameMatches d;
     seq_TrivialNames := i;
     seq_CIDNameMatches := seq_CIDNameMatches d |}.

(** [INSERT INTO CIDNameMatches(CID, NameID) VALUES(cid, name_id)] *)
Definition sql_insert_cid_name_match (c name_id : Z) (d : database)
  : database :=
  let i := next_rowid (seq_CIDNameMatches d) (match_ID <$> CIDNameMatches d) in
  {| Compounds := Compounds d;
     TrivialNames := TrivialNames d;
     CIDNameMatches :=
       CIDNameMatches d ++
       [{| match_ID := i; match_NameID := name_id; match_CID := c |}];
     seq_TrivialNames := seq_TrivialNames d;
     seq_CIDNameMatches := i |}.

(** [INSERT INTO Compounds(CID, IUPAC, Smiles) VALUES(...)] *)
Definition sql_insert_compound (compound : Compound) (d : database)
  : database :=
  {| Compounds :=
       Compounds d ++
       [{| CID := cid compound; IUPAC := iupac_name compound;
           Smiles := smiles compound |}];
     TrivialNames := TrivialNames d;
     CIDNameMatches := CIDNameMatches d;
     seq_TrivialNames := seq_TrivialNames d;
     seq_CIDNameMatches := seq_CIDNameMatches d |}.

(** *** The methods *)

Definition create : M unit :=
  connect (fun d => Ok (tt, d)).

Definition get_max_cid : M (option Z) :=
  connect (fun d => Ok (select_max_cid d, d)).

Definition trivial_name_exists (name : string) : M bool :=
  connect (fun d =>
    let trivial_name_found := select_name_id name d in
    Ok (match trivial_name_found with Some _ => true | None => false end,
        d)).

Definition cid_exists (c : Z) : M bool :=
  connect (fun d =>
    let cid_found := select_cid c d in
    Ok (match cid_found with Some _ => true | None => false end, d)).

Definition get_trivial_name_id (name : string) : M (option Z) :=
  connect (fun d => Ok (select_name_id name d, d)).

Definition insert_trivial_name (name : string) : M unit :=
  connect (fun d => Ok (tt, sql_insert_trivial_name name d)).

(** The statement interpolates [name_id]; [None] makes it name a column
    that does not exist. *)
Definition insert_cid_name_match (c : Z) (name_id : option Z) : M unit :=
  connect (fun d =>
    match name_id with
    | None => Raise OperationalError
    | Some n => Ok (tt, sql_insert_cid_name_match c n d)
    end).

(** CID is the primary key: a second row with the same CID is refused. *)
Definition insert_compound (compound : Compound) : M unit :=
  connect (fun d =>
    match select_cid (cid compound) d with
    | Some _ => Raise IntegrityError
    | None => Ok (tt, sql_insert_compound compound d)
    end).

Definition add_trivial_name (name : string) (c : Z) : M bool :=
  found <- trivial_name_exists name ;;
  inserted <- (if negb found
               then insert_trivial_name name ;; ret true
               else ret false) ;;
  name_id <- get_trivial_name_id name ;;
  (if str_truthy name
   then insert_cid_name_match c name_id
   else ret tt) ;;
  ret inserted.

Definition add_compound (compound : Compound) : M bool :=
  found <- cid_exists (cid compound) ;;
  if found then ret false
  else
    insert_compound compound ;;
    for_in (trivial_names compound)
      (fun _ trivial_name =>
         add_trivial_name trivial_name (cid compound) ;; ret tt) tt ;;
    ret true.

End Database.

(** ** get_compound and run_cids *)

(** Truthiness of an attribute that is a [str] or [None]. *)
Definition attr_truthy (a : option string) : bool :=
  match a with
  | Some s => str_truthy s
  | None => false
  end.

(** [max_cid + 1 if max_cid else 1] *)
Definition start_after (max_cid : option Z) : Z :=
  match max_cid with
  | Some m => if m =? 0 then 1 else m + 1
  | None => 1
  end.

Section Ingestion.

(** The remote service: the record of each identifier, [None] when the
    lookup raises. *)
Variable pubchem : Z -> option pcp_Compound.

(** [tuple(set(l))]: the elements of [l] in the order the set yields them. *)
Variable tuple_of_set : list string -> list string.

Definition from_cid (c : Z) : M pcp_Compound :=
  fun w =>
    let w' := {| db := db w; faults := faults w;
                 requests := requests w ++ [c]; stdout := stdout w |} in
    match pubchem c with
    | Some compound => (Ok compound, w')
    | None => (Raise PubChemError, w')
    end.

Definition get_compound (c : Z) : M (option Compound) :=
  try_except
    (compound <- from_cid c ;;
     let smiles := canonical_smiles compound in
     let iupac_name := pcp_iupac_name compound in
     trivial_names <- match synonyms compound with
                      | Some l => ret l
                      | None => raise TypeError
                      end ;;
     let trivial_names := filter_names trivial_names in
     let trivial_names := tuple_of_set trivial_names in
     if attr_truthy smiles && attr_truthy iupac_name
     then
       match smiles, iupac_name with
       | Some s, Some n =>
           ret (Some {| cid := c; smiles := s; iupac_name := n;
                        trivial_names := trivial_names |})
       | _, _ => ret None
       end
     else ret None)
    (fun ex => print (ErrorFetching c ex) ;; ret None).

(** The body of the loop of [run_cids]; [broken_cids] is the list the loop
    appends to. *)
Definition run_cids_body (broken_cids : list Z) (c : Z) : M (list Z) :=
  compound <- get_compound c ;;
  resp <- match compound with
          | Some compound =>
              try_except (Database.add_compound compound)
                (fun ex => print (ErrorWriting ex) ;; ret false)
          | None => ret false
          end ;;
  if resp : bool
  then print (CidOk c) ;; ret broken_cids
  else print (CidNotAdded c) ;; ret (broken_cids ++ [c]).

(** [for cid in range(start_cid, start_cid+count)], yielding the list
    [broken_cids] it has built. *)
Definition run_cids_loop (start_cid count : Z) : M (list Z) :=
  for_in (seqZ start_cid count) run_cids_body [].

Definition run_cids (count : Z) : M unit :=
  print RunStarting ;;
  Database.create ;;
  max_cid <- Database.get_max_cid ;;
  let start_cid := start_after max_cid in
  print (FromCount start_cid count) ;;
  broken_cids <- run_cids_loop start_cid count ;;
  let broken_cids_count := Z.of_nat (List.length broken_cids) in
  print RunFinished ;;
  print (ReportLine (count - broken_cids_count) broken_cids_count) ;;
  if broken_cids_count =? 0 then ret tt
  else print (BrokenCids broken_cids).

End Ingestion.

(** ** Vocabulary of the properties *)

(** What the loop of [filter_names] does to one name. *)
Definition unquote (name : string) : string :=
  if startswith (String dquote EmptyString) name
     && endswith (String dquote EmptyString) name
  then slice 1 (-1) name
  else name.

(** [sub] occurs in [s]. *)
Definition has_substring (sub s : string) : Prop :=
  exists pre post, s = pre +:+ sub +:+ post.

(** [s] holds a run of two or more consecutive digits. *)
Definition has_digit_run (s : string) : Prop :=
  exists a b, is_digit a = true /\ is_digit b = true /\
              has_substring (String a (String b EmptyString)) s.

(** The test the pattern makes on two adjacent characters. *)
Definition pattern_pair (a b : ascii) : bool :=
  is_digit a && is_digit b || Ascii.eqb ","%char a && Ascii.eqb " "%char b.

(** [tuple(set(l))] yields each element of [l] once, in some order. *)
Definition set_order (tuple_of_set : list string -> list string) : Prop :=
  forall l, NoDup (tuple_of_set l) /\
            forall x, x ∈ tuple_of_set l <-> x ∈ l.

(** A name between two double quotes. *)
Definition quoted (s : string) : string :=
  String dquote (s +:+ String dquote EmptyString).

(** Python's [m or 0] for an [int] or [None]. *)
Definition or_zero (m : option Z) : Z :=
  match m with
  | Some x => if x =? 0 then 0 else x
  | None => 0
  end.

(** Each name string has at most one row in TrivialNames. *)
Definition names_unique (d : database) : Prop :=
  NoDup (Name <$> TrivialNames d).

(** The primary key of TrivialNames: no two rows share an ID. *)
Definition ids_unique (d : database) : Prop :=
  NoDup (ID <$> TrivialNames d).

(** The tables once [name] has a row: what the first half of
    [add_trivial_name] does when nothing fails. *)
Definition name_added (name : string) (d : database) : database :=
  match Database.select_name_id name d with
  | Some _ => d
  | None => Database.sql_insert_trivial_name name d
  end.

(** The tables once [name], if truthy, is linked to [c]: the second half. *)
Definition match_added (c : Z) (name : string) (d : database) : database :=
  if str_truthy name
  then match Database.select_name_id name d with
       | Some n => Database.sql_insert_cid_name_match c n d
       | None => d
       end
  else d.

(** The tables after the loop of [add_compound] when nothing fails. *)
Definition names_added (c : Z) (names : list string) (d : database)
  : database :=
  foldl (fun d name => match_added c name (name_added name d)) d names.

(** The world at the first start: no table has a row, nothing is
    scheduled to fail, nothing was requested or printed. *)
Definition world0 : world :=
  {| db := empty_database; faults := []; requests := []; stdout := [] |}.

(** The link rows a compound gets: one per truthy name, in order, each
    pointing at the identity of its name. *)
Definition links_of (d : database) (c : Z) (names : list string)
    (rows : list matches_row) : Prop :=
  Forall2 (fun m r => Database.select_name_id m d = Some (match_NameID r) /\
                      match_CID r = c)
    (List.filter str_truthy names) rows.

(** Two compounds for the examples; they share one trivial name. *)
Definition acetone : Compound :=
  {| cid := 180; smiles := "CC(=O)C"; iupac_name := "propan-2-one";
     trivial_names := ["Acetone"; "Solvent"] |}.

Definition ethanol : Compound :=
  {| cid := 702; smiles := "CCO"; iupac_name := "ethanol";
     trivial_names := ["Solvent"; "Alcohol"] |}.

(** Whether the [n]-th coming [with] block is scheduled to fail. *)
Definition fault_at (n : nat) (w : world) : bool :=
  default false (faults w !! n).

(** What [get_compound] returns for [c]: a function of the remote record
    alone. *)
Definition fetched (pubchem : Z -> option pcp_Compound)
    (tuple_of_set : list string -> list string) (c : Z) : option Compound :=
  match pubchem c with
  | Some {| canonical_smiles := Some s; pcp_iupac_name := Some n;
            synonyms := Some l |} =>
      if str_truthy s && str_truthy n
      then Some {| cid := c; smiles := s; iupac_name := n;
                   trivial_names := tuple_of_set (filter_names l) |}
      else None
  | _ => None
  end.

(** The record of [c] lacks a canonical structure or a preferred name. *)
Definition incomplete (pubchem : Z -> option pcp_Compound) (c : Z) : Prop :=
  exists r, pubchem c = Some r /\
            attr_truthy (canonical_smiles r)
            && attr_truthy (pcp_iupac_name r) = false.

(** A remote service for the examples: identifier 1 has a full record,
    identifier 2 a record with no preferred name, no other identifier is
    known. *)
Definition pubchem_example (c : Z) : option pcp_Compound :=
  if c =? 1 then
    Some {| canonical_smiles := Some "CC(=O)C";
            pcp_iupac_name := Some "propan-2-one";
            synonyms := Some [PyStr "Acetone"; PyStr "Acetone"; PyInt 123;
                              PyStr "CAS 67-64-1";
                              PyStr (quoted "quoted")] |}
  else if c =? 2 then
    Some {| canonical_smiles := Some "CCO"; pcp_iupac_name := None;
            synonyms := Some [] |}
  else None.

(** The primary key of Compounds: no two rows share a CID. *)
Definition cids_unique (d : database) : Prop :=
  NoDup (CID <$> Compounds d).

(** The primary key of CIDNameMatches: no two rows share an ID. *)
Definition match_ids_unique (d : database) : Prop :=
  NoDup (match_ID <$> CIDNameMatches d).

(** Every link row points at the ID of a TrivialNames row. *)
Definition links_resolve (d : database) : Prop :=
  forall r, r ∈ CIDNameMatches d -> match_NameID r ∈ ID <$> TrivialNames d.

(** Every link row points at the CID of a Compounds row. *)
Definition links_have_compound (d : database) : Prop :=
  forall r, r ∈ CIDNameMatches d -> match_CID r ∈ CID <$> Compounds d.

(** [d] holds every row of [d0], at the same place: rows were only
    appended. *)
Definition extends (d0 d : database) : Prop :=
  Compounds d0 `prefix_of` Compounds d /\
  TrivialNames d0 `prefix_of` TrivialNames d /\
  CIDNameMatches d0 `prefix_of` CIDNameMatches d.

(** The Compounds row that [insert_compound] writes. *)
Definition row_of (compound : Compound) : compounds_row :=
  {| CID := cid compound; IUPAC := iupac_name compound;
     Smiles := smiles compound |}.

(** The world after the lines [ls] are printed. *)
Definition say (ls : list line) (w : world) : world :=
  {| db := db w; faults := faults w; requests := requests w;
     stdout := stdout w ++ ls |}.

(** The world after [c] is asked for. *)
Definition asked (c : Z) (w : world) : world :=
  {| db := db w; faults := faults w; requests := requests w ++ [c];
     stdout := stdout w |}.

(** No coming [with] block is scheduled to fail. *)
Definition no_fault (w : world) : Prop := true ∉ faults w.

(** The identifiers of [l] whose record yields no compound. *)
Definition not_fetched (pubchem : Z -> option pcp_Compound)
    (tuple_of_set : list string -> list string) (l : list Z) : list Z :=
  List.filter
    (fun c => match fetched pubchem tuple_of_set c with
              | None => true
              | Some _ => false
              end) l.

(** A Hoare triple over the worlds: from a world where [P] holds, [m]
    ends, with a value or an exception, in a world where [Q] holds. *)
Definition hoare {A} (P : world -> Prop) (m : M A)
    (Q : outcome A -> world -> Prop) : Prop :=
  forall w, P w -> Q (m w).1 (m w).2.

(** A regex that matches nothing, by its shape. *)
Fixpoint void (r : regex) : bool :=
  match r with
  | Void => true
  | Seq r1 r2 => void r1 || void r2
  | Alt r1 r2 => void r1 && void r2
  | _ => false
  end.

(** * Properties of the name filter *)

Lemma void_not_nullable r : void r = true -> nullable r = false.
Proof.
  induction r; simpl; try discriminate; auto.
  - intros [H|H]%orb_true_iff.
    + rewrite IHr1; auto.
    + rewrite IHr2; auto. apply andb_false_r.
  - intros [H1 H2]%andb_true_iff. rewrite IHr1, IHr2; auto.
Qed.

Lemma void_deriv c r : void r = true -> void (deriv c r) = true.
Proof.
  induction r; simpl; try discriminate; auto.
  - intros [H|H]%orb_true_iff.
    + rewrite (void_not_nullable r1 H). simpl. rewrite IHr1; auto.
    + destruct (nullable r1); simpl; rewrite ?IHr2, ?H; auto;
        rewrite ?orb_true_r; auto.
  - intros [H1 H2]%andb_true_iff. rewrite IHr1, IHr2; auto.
Qed.

Lemma re_match_void s : forall r, void r = true -> re_match r s = false.
Proof.
  induction s as [|c s IH]; intros r H; simpl;
    rewrite (void_not_nullable r H); simpl; auto using void_deriv.
Qed.

(** At one position the pattern looks at two characters only. *)
Lemma re_match_pattern s :
  re_match pattern s =
  match s with
  | String a (String b _) =>
      is_digit a && is_digit b || Ascii.eqb ","%char a && Ascii.eqb " "%char b
  | _ => false
  end.
Proof.
  unfold pattern, Chr.
  destruct s as [|a [|b t]];
    cbn [re_match nullable deriv at_least orb andb].
  - reflexivity.
  - destruct (is_digit a), (Ascii.eqb ","%char a); reflexivity.
  - destruct (is_digit a), (Ascii.eqb ","%char a);
      cbn [re_match nullable deriv orb andb];
      destruct (is_digit b), (Ascii.eqb " "%char b);
      cbn [re_match nullable deriv orb andb];
      try reflexivity;
      destruct t; cbn [re_match nullable deriv orb andb];
      try reflexivity; apply re_match_void; reflexivity.
Qed.

(** *** Strings: appending and substrings *)

Lemma str_app_cons a s t : String a s +:+ t = String a (s +:+ t).
Proof. reflexivity. Qed.

Lemma str_app_nil_r s : s +:+ EmptyString = s.
Proof.
  induction s as [|a s IH]; [reflexivity|]. by rewrite str_app_cons, IH.
Qed.

Lemma str_app_assoc s t u : (s +:+ t) +:+ u = s +:+ t +:+ u.
Proof.
  induction s as [|a s IH]; [reflexivity|]. by rewrite !str_app_cons, IH.
Qed.

Lemma has_substring_refl s : has_substring s s.
Proof. exists EmptyString, EmptyString. by rewrite str_app_nil_r. Qed.

Lemma has_substring_trans s t u :
  has_substring s t -> has_substring t u -> has_substring s u.
Proof.
  intros (p & q & ->) (p' & q' & ->).
  exists (p' +:+ p), (q +:+ q'). by rewrite !str_app_assoc.
Qed.

Lemma has_substring_cons a sub s :
  has_substring sub s -> has_substring sub (String a s).
Proof. intros (p & q & ->). by exists (String a p), q. Qed.

Lemma substring_0_prefix m : forall s,
  exists post, s = substring 0 m s +:+ post.
Proof.
  induction m as [|m IH]; intros s.
  - exists s. by destruct s.
  - destruct s as [|a s]; [by exists EmptyString|].
    destruct (IH s) as [post Hpost]. exists post.
    simpl. by rewrite str_app_cons, <- Hpost.
Qed.

Lemma substring_has_substring n m : forall s,
  has_substring (substring n m s) s.
Proof.
  induction n as [|n IH]; intros s.
  - destruct (substring_0_prefix m s) as [post Hpost].
    by exists EmptyString, post.
  - destruct s as [|a s]; simpl.
    + destruct m; apply has_substring_refl.
    + apply has_substring_cons, IH.
Qed.

Lemma unquote_has_substring name : has_substring (unquote name) name.
Proof.
  unfold unquote.
  destruct (_ && _); [apply substring_has_substring | apply has_substring_refl].
Qed.

(** *** What the pattern finds *)

Lemma re_search_pattern_pair s :
  re_search pattern s = true <->
  exists a b, pattern_pair a b = true /\
              has_substring (String a (String b EmptyString)) s.
Proof.
  split.
  - induction s as [|c s IH]; cbn [re_search]; rewrite re_match_pattern.
    + discriminate.
    + intros [H|H]%orb_true_iff.
      * destruct s as [|b t]; [discriminate|].
        exists c, b. split; [exact H|]. by exists EmptyString, t.
      * destruct (IH H) as (a & b & Hab & Hsub).
        exists a, b. split; [exact Hab|]. by apply has_substring_cons.
  - intros (a & b & Hab & p & q & ->).
    induction p as [|c p IH].
    + change (re_search pattern (String a (String b q)) = true).
      cbn [re_search]. rewrite re_match_pattern.
      unfold pattern_pair in Hab. by rewrite Hab.
    + rewrite str_app_cons. cbn [re_search]. rewrite IH. apply orb_true_r.
Qed.

Lemma re_search_pattern_spec s :
  re_search pattern s = true <-> has_digit_run s \/ has_substring ", " s.
Proof.
  rewrite re_search_pattern_pair. unfold has_digit_run, pattern_pair. split.
  - intros (a & b & [[Ha Hb]%andb_true_iff|[Ha Hb]%andb_true_iff]%orb_true_iff
            & Hsub).
    + left. by exists a, b.
    + right. apply Ascii.eqb_eq in Ha, Hb. by subst.
  - intros [(a & b & Ha & Hb & Hsub)|Hsub].
    + exists a, b. by rewrite Ha, Hb.
    + by exists ","%char, " "%char.
Qed.

Lemma re_search_pattern_substring s t :
  has_substring s t -> re_search pattern s = true ->
  re_search pattern t = true.
Proof.
  rewrite !re_search_pattern_pair. intros Hst (a & b & Hab & Hsub).
  exists a, b. eauto using has_substring_trans.
Qed.

(** *** The loop is a map *)

Lemma unquote_loop_app rest : forall pre,
  unquote_loop (List.length rest) (List.length pre) (pre ++ rest) =
  pre ++ (unquote <$> rest).
Proof.
  induction rest as [|name rest IH]; intros pre; [reflexivity|].
  cbn [List.length unquote_loop].
  rewrite list_lookup_middle by reflexivity.
  replace (if startswith (String dquote EmptyString) name
              && endswith (String dquote EmptyString) name
           then <[List.length pre := slice 1 (-1) name]> (pre ++ name :: rest)
           else pre ++ name :: rest)
    with ((pre ++ [unquote name]) ++ rest).
  - replace (S (List.length pre)) with (List.length (pre ++ [unquote name]))
      by (rewrite length_app; simpl; lia).
    rewrite IH, <- app_assoc. reflexivity.
  - rewrite <- app_assoc. unfold unquote. destruct (_ && _); [|reflexivity].
    rewrite insert_app_r_alt, Nat.sub_diag by reflexivity. reflexivity.
Qed.

Lemma filter_names_eq names :
  filter_names names =
  unquote <$> List.filter (fun s => negb (re_search pattern s))
                (omap isinstance_str names).
Proof. unfold filter_names. apply (unquote_loop_app _ []). Qed.

Lemma elem_of_filter_names names x :
  x ∈ filter_names names <->
  exists s, PyStr s ∈ names /\ re_search pattern s = false /\ x = unquote s.
Proof.
  rewrite filter_names_eq, list_elem_of_fmap. split.
  - intros (s & -> & Hs). exists s.
    apply list_elem_of_In, filter_In in Hs as [Hs Hre].
    apply list_elem_of_In, list_elem_of_omap in Hs as (v & Hv & Hstr).
    destruct v; try discriminate. injection Hstr as ->.
    by apply negb_true_iff in Hre.
  - intros (s & Hs & Hre & ->). exists s. split; [reflexivity|].
    apply list_elem_of_In, filter_In. split; [|by rewrite Hre].
    apply list_elem_of_In, list_elem_of_omap. by exists (PyStr s).
Qed.

(** *** The claims about [filter_names] *)

(** C8. On the input [Acetone, Acetone, 123, CAS 67-64-1, quoted-in-quotes]
    the filter returns the list [Acetone, Acetone, quoted], whose set of
    elements is that of [Acetone, quoted]. *)
Theorem filter_names_acetone :
  let names := [PyStr "Acetone"; PyStr "Acetone"; PyInt 123;
                PyStr "CAS 67-64-1"; PyStr (quoted "quoted")] in
  filter_names names = ["Acetone"; "Acetone"; "quoted"] /\
  forall x, x ∈ filter_names names <-> x ∈ ["Acetone"; "quoted"].
Proof.
  intros names.
  assert (filter_names names = ["Acetone"; "Acetone"; "quoted"]) as ->
    by (vm_compute; reflexivity).
  split; [reflexivity|]. intros x. rewrite !elem_of_cons. tauto.
Qed.

(** C10. A name that is one double quote, or two, starts and ends with a
    double quote, holds nothing the pattern looks for, and comes out of the
    filter as the empty string. *)
Theorem filter_names_empty_string :
  let one := String dquote EmptyString in
  let two := String dquote (String dquote EmptyString) in
  (startswith one one && endswith one one = true /\
   re_search pattern one = false /\
   filter_names [PyStr one] = [EmptyString]) /\
  (startswith one two && endswith one two = true /\
   re_search pattern two = false /\
   filter_names [PyStr two] = [EmptyString]).
Proof. vm_compute. repeat split. Qed.

(** C1, as stated, fails: the filter keeps a name that occurs twice. *)
Lemma filter_names_keeps_duplicates :
  filter_names [PyStr "Acetone"; PyStr "Acetone"] = ["Acetone"; "Acetone"] /\
  ~ NoDup (filter_names [PyStr "Acetone"; PyStr "Acetone"]).
Proof.
  assert (filter_names [PyStr "Acetone"; PyStr "Acetone"]
          = ["Acetone"; "Acetone"]) as -> by (vm_compute; reflexivity).
  split; [reflexivity|]. intros H. apply NoDup_cons in H as [H _].
  apply H. left.
Qed.

(** * Reasoning rules for the monad *)

Lemma hoare_conseq {A} (P P' : world -> Prop) (m : M A)
    (Q Q' : outcome A -> world -> Prop) :
  (forall w, P' w -> P w) -> hoare P m Q ->
  (forall r w, Q r w -> Q' r w) -> hoare P' m Q'.
Proof. unfold hoare. auto. Qed.

Lemma hoare_ret {A} (P : world -> Prop) (a : A)
    (Q : outcome A -> world -> Prop) :
  (forall w, P w -> Q (Ok a) w) -> hoare P (ret a) Q.
Proof. unfold hoare, ret. auto. Qed.

Lemma hoare_bind {A B} (P : world -> Prop) (m : M A) (k : A -> M B)
    (R : outcome A -> world -> Prop) (Q : outcome B -> world -> Prop) :
  hoare P m R ->
  (forall a, hoare (R (Ok a)) (k a) Q) ->
  (forall e w, R (Raise e) w -> Q (Raise e) w) ->
  hoare P (bind m k) Q.
Proof.
  unfold hoare, bind. intros Hm Hk He w HP. specialize (Hm w HP).
  destruct (m w) as [[a|e] w']; simpl in *; auto.
Qed.

Lemma hoare_try_except {A} (P : world -> Prop) (body : M A)
    (handler : exn -> M A) (R Q : outcome A -> world -> Prop) :
  hoare P body R ->
  (forall a w, R (Ok a) w -> Q (Ok a) w) ->
  (forall e, hoare (R (Raise e)) (handler e) Q) ->
  hoare P (try_except body handler) Q.
Proof.
  unfold hoare, try_except. intros Hb Hok Hh w HP. specialize (Hb w HP).
  destruct (body w) as [[a|e] w']; simpl in *; auto.
Qed.

Lemma hoare_connect {A} (P : world -> Prop)
    (stmt : database -> outcome (A * database))
    (Q : outcome A -> world -> Prop) :
  (forall w, P w ->
     Q (Raise OperationalError) (set_faults (tail (faults w)) w)) ->
  (forall w, P w ->
     match stmt (db w) with
     | Ok (a, d) => Q (Ok a) (set_db d (set_faults (tail (faults w)) w))
     | Raise e => Q (Raise e) (set_faults (tail (faults w)) w)
     end) ->
  hoare P (connect stmt) Q.
Proof.
  unfold hoare, connect. intros Hf Hs w HP.
  specialize (Hf w HP). specialize (Hs w HP).
  destruct (faults w) as [|[|] fs]; simpl in *; auto;
    destruct (stmt (db w)) as [[a d]|e]; simpl; auto.
Qed.

Lemma hoare_print (P : world -> Prop) (ln : line)
    (Q : outcome unit -> world -> Prop) :
  (forall w, P w ->
     Q (Ok tt) {| db := db w; faults := faults w; requests := requests w;
                  stdout := stdout w ++ [ln] |}) ->
  hoare P (print ln) Q.
Proof. unfold hoare, print. auto. Qed.

(** A loop keeps what each turn keeps, whether it ends or raises. *)
Lemma hoare_for_in {A S} (I : world -> Prop) (l : list A)
    (body : S -> A -> M S) :
  (forall acc x, x ∈ l -> hoare I (body acc x) (fun _ w => I w)) ->
  forall acc, hoare I (for_in l body acc) (fun _ w => I w).
Proof.
  induction l as [|x l IH]; intros Hbody acc; simpl.
  - by apply hoare_ret.
  - eapply hoare_bind.
    + apply Hbody. left.
    + intros acc'. apply IH. intros acc'' y Hy. apply Hbody. by right.
    + auto.
Qed.

(** A loop over [l1 ++ l2] is the loop over [l1], then the one over [l2]. *)
Lemma for_in_app {A S} (l1 l2 : list A) (body : S -> A -> M S) (acc : S) w :
  for_in (l1 ++ l2) body acc w =
  bind (for_in l1 body acc) (for_in l2 body) w.
Proof.
  revert acc w. induction l1 as [|x l1 IH]; intros acc w; simpl.
  - reflexivity.
  - unfold bind in *. destruct (body acc x w) as [[acc'|e] w'].
    + apply IH.
    + reflexivity.
Qed.

Lemma bind_Ok {A B} (m : M A) (k : A -> M B) w a w' :
  m w = (Ok a, w') -> bind m k w = k a w'.
Proof. unfold bind. by intros ->. Qed.

Lemma bind_Raise {A B} (m : M A) (k : A -> M B) w e w' :
  m w = (Raise e, w') -> bind m k w = (Raise e, w').
Proof. unfold bind. by intros ->. Qed.

(** One rule at a time, for a property [I] that every step keeps. *)
Ltac hoare_step I :=
  first
    [ apply hoare_ret; solve [auto]
    | apply hoare_print; solve [auto]
    | eapply (hoare_bind _ _ _ (fun _ w => I w)); [ | intros ? | solve [auto] ]
    | apply hoare_for_in; intros ? ? ?
    | apply hoare_connect; simpl; [solve [auto] | ] ].

(** With no fault scheduled, a [with] block runs its statement. *)
Lemma connect_no_faults {A} (stmt : database -> outcome (A * database)) w :
  faults w = [] ->
  connect stmt w =
  match stmt (db w) with
  | Ok (a, d) => (Ok a, set_db d w)
  | Raise e => (Raise e, w)
  end.
Proof.
  destruct w as [d fs rq out]. simpl. intros ->. unfold connect. simpl.
  destruct (stmt d) as [[a d']|e]; reflexivity.
Qed.

(** * Properties of the store *)

Import Database.

(** *** The two lookups *)

Lemma head_filter_None {A} (p : A -> bool) (l : list A) :
  head (List.filter p l) = None <-> forall x, x ∈ l -> p x = false.
Proof.
  induction l as [|y l IH]; simpl.
  - split; [|done]. intros _ x Hx. inversion Hx.
  - destruct (p y) eqn:Hy; simpl.
    + split; [done|]. intros H. specialize (H y). rewrite Hy in H.
      discriminate H. left.
    + rewrite IH. split.
      * intros H x [->|Hx]%elem_of_cons; auto.
      * intros H x Hx. apply H. by right.
Qed.

Lemma head_filter_Some {A} (p : A -> bool) (l : list A) x :
  head (List.filter p l) = Some x -> x ∈ l /\ p x = true.
Proof.
  induction l as [|y l IH]; simpl; [discriminate|].
  destruct (p y) eqn:Hy; simpl.
  - intros [= ->]. split; [left|done].
  - intros H. destruct (IH H). split; [by right|done].
Qed.

Lemma head_filter_app {A} (p : A -> bool) (l l' : list A) x :
  head (List.filter p l) = Some x ->
  head (List.filter p (l ++ l')) = Some x.
Proof.
  rewrite List.filter_app. destruct (List.filter p l); [discriminate|].
  by intros [= ->].
Qed.

Lemma select_name_id_None name d :
  select_name_id name d = None <-> name ∉ Name <$> TrivialNames d.
Proof.
  unfold select_name_id. rewrite fmap_None, head_filter_None.
  rewrite list_elem_of_fmap. split.
  - intros H (r & -> & Hr). specialize (H r Hr).
    by rewrite String.eqb_refl in H.
  - intros H r Hr. apply String.eqb_neq. intros <-. apply H. by exists r.
Qed.

Lemma select_name_id_Some name d i :
  select_name_id name d = Some i ->
  {| ID := i; Name := name |} ∈ TrivialNames d.
Proof.
  unfold select_name_id. intros (r & Hr & ->)%fmap_Some.
  apply head_filter_Some in Hr as [Hr <-%String.eqb_eq]. by destruct r.
Qed.

Lemma select_cid_None c d :
  select_cid c d = None <-> c ∉ CID <$> Compounds d.
Proof.
  unfold select_cid. rewrite fmap_None, head_filter_None.
  rewrite list_elem_of_fmap. split.
  - intros H (r & -> & Hr). specialize (H r Hr). lia.
  - intros H r Hr. apply Z.eqb_neq. intros <-. apply H. by exists r.
Qed.

Lemma foldr_max_spec (b : Z) (l : list Z) :
  (foldr Z.max b l = b \/ foldr Z.max b l ∈ l) /\
  b <= foldr Z.max b l /\
  forall x, x ∈ l -> x <= foldr Z.max b l.
Proof.
  induction l as [|y l (Hin & Hb & Hle)]; simpl.
  - split; [by left|]. split; [lia|]. intros x Hx. inversion Hx.
  - split; [|split].
    + destruct (Z.max_spec y (foldr Z.max b l)) as [[_ Hm]|[_ Hm]];
        rewrite Hm.
      * destruct Hin as [Hin|Hin]; [by left|right; by right].
      * right. left.
    + lia.
    + intros x [->|Hx]%elem_of_cons; [lia|]. specialize (Hle x Hx). lia.
Qed.

(** [MAX(CID)] is a stored CID and no stored CID is larger. *)
Lemma select_max_cid_spec d m :
  select_max_cid d = Some m ->
  m ∈ CID <$> Compounds d /\ forall c, c ∈ CID <$> Compounds d -> c <= m.
Proof.
  unfold select_max_cid. destruct (Compounds d) as [|r rows]; [discriminate|].
  intros [= <-]. simpl.
  destruct (foldr_max_spec (CID r) (CID <$> rows)) as (Hin & Hb & Hle).
  split.
  - destruct Hin as [->|Hin]; [left|by right].
  - intros c [->|Hc]%elem_of_cons; auto.
Qed.

(** *** Name uniqueness is kept, whatever fails *)

Lemma sql_insert_trivial_name_unique name d :
  names_unique d -> select_name_id name d = None ->
  names_unique (sql_insert_trivial_name name d).
Proof.
  unfold names_unique. intros Hd Hn%select_name_id_None. simpl.
  rewrite fmap_app. apply NoDup_app. split; [done|]. split.
  - intros x Hx [->|H]%elem_of_cons; [done|inversion H].
  - apply NoDup_singleton.
Qed.

Lemma add_trivial_name_names_unique name c :
  hoare (fun w => names_unique (db w)) (add_trivial_name name c)
        (fun _ w => names_unique (db w)).
Proof.
  unfold add_trivial_name.
  eapply hoare_bind with
    (R := fun r w => names_unique (db w) /\
                     (r = Ok false -> select_name_id name (db w) = None)).
  - apply hoare_connect; simpl; [by intuition|].
    intros w Hw. split; [done|]. by destruct (select_name_id name (db w)).
  - intros found. eapply hoare_bind with
      (R := fun _ w => names_unique (db w)).
    + destruct found; simpl.
      * apply hoare_ret. tauto.
      * eapply hoare_bind with (R := fun _ w => names_unique (db w)).
        -- apply hoare_connect; simpl; [tauto|].
           intros w [Hw Hn]. apply sql_insert_trivial_name_unique; auto.
        -- intros _. by apply hoare_ret.
        -- auto.
    + intros inserted. eapply hoare_bind with
        (R := fun _ w => names_unique (db w)).
      * apply hoare_connect; simpl; auto.
      * intros name_id. eapply hoare_bind with
          (R := fun _ w => names_unique (db w)).
        -- destruct (str_truthy name); [|by apply hoare_ret].
           apply hoare_connect; simpl; [auto|].
           intros w Hw. by destruct name_id.
        -- intros _. by apply hoare_ret.
        -- auto.
      * auto.
    + auto.
  - simpl. tauto.
Qed.

Lemma add_compound_names_unique compound :
  hoare (fun w => names_unique (db w)) (add_compound compound)
        (fun _ w => names_unique (db w)).
Proof.
  unfold add_compound.
  eapply hoare_bind with (R := fun _ w => names_unique (db w)).
  - apply hoare_connect; simpl; auto.
  - intros [|]; [by apply hoare_ret|].
    eapply hoare_bind with (R := fun _ w => names_unique (db w)).
    + apply hoare_connect; simpl; [auto|].
      intros w Hw. by destruct (select_cid (cid compound) (db w)).
    + intros _. eapply hoare_bind with (R := fun _ w => names_unique (db w)).
      * apply hoare_for_in. intros _ name _.
        eapply hoare_bind with (R := fun _ w => names_unique (db w)).
        -- apply add_trivial_name_names_unique.
        -- intros _. by apply hoare_ret.
        -- auto.
      * intros _. by apply hoare_ret.
      * auto.
    + auto.
  - auto.
Qed.

(** *** Running without faults *)

Lemma set_db_id w : set_db (db w) w = w.
Proof. by destruct w. Qed.

Lemma select_name_id_name_added name d :
  is_Some (select_name_id name (name_added name d)).
Proof.
  unfold name_added. destruct (select_name_id name d) as [i|] eqn:Hd.
  - rewrite Hd. by exists i.
  - unfold select_name_id, sql_insert_trivial_name. simpl.
    rewrite List.filter_app. simpl. rewrite String.eqb_refl.
    destruct (List.filter _ (TrivialNames d)); simpl; eauto.
Qed.

Lemma add_trivial_name_no_faults name c w :
  faults w = [] ->
  add_trivial_name name c w =
  (Ok (match select_name_id name (db w) with
       | Some _ => false
       | None => true
       end),
   set_db (match_added c name (name_added name (db w))) w).
Proof.
  destruct w as [d fs rq out]. simpl. intros ->.
  pose proof (select_name_id_name_added name d) as [i Hi].
  unfold add_trivial_name, bind, trivial_name_exists, insert_trivial_name,
    get_trivial_name_id, insert_cid_name_match, connect, ret, match_added,
    name_added in *.
  simpl. destruct (select_name_id name d) as [j|] eqn:Hd; simpl.
  - rewrite ?Hd. destruct (str_truthy name); reflexivity.
  - rewrite ?Hi. destruct (str_truthy name); reflexivity.
Qed.

Lemma add_names_no_faults c names : forall w,
  faults w = [] ->
  for_in names (fun _ trivial_name =>
                  add_trivial_name trivial_name c ;; ret tt) tt w =
  (Ok tt, set_db (names_added c names (db w)) w).
Proof.
  induction names as [|name names IH]; intros w Hw; simpl.
  - unfold ret. by rewrite set_db_id.
  - rewrite (bind_Ok _ _ w tt
               (set_db (match_added c name (name_added name (db w))) w)).
    + by rewrite IH.
    + erewrite bind_Ok; [reflexivity|].
      by apply add_trivial_name_no_faults.
Qed.

Lemma add_compound_no_faults compound w :
  faults w = [] -> select_cid (cid compound) (db w) = None ->
  add_compound compound w =
  (Ok true,
   set_db (names_added (cid compound) (trivial_names compound)
             (sql_insert_compound compound (db w))) w).
Proof.
  intros Hf Hc. unfold add_compound.
  rewrite (bind_Ok _ _ w false w)
    by (unfold cid_exists; by rewrite connect_no_faults, Hc, set_db_id).
  erewrite bind_Ok;
    [|unfold insert_compound; by rewrite connect_no_faults, Hc].
  erewrite bind_Ok; [|by apply add_names_no_faults]. reflexivity.
Qed.

Lemma cid_exists_no_faults c w :
  faults w = [] ->
  cid_exists c w =
  (Ok (match select_cid c (db w) with Some _ => true | None => false end), w).
Proof.
  intros Hf. unfold cid_exists. by rewrite connect_no_faults, set_db_id.
Qed.

(** A compound whose CID is stored is left alone: nothing is written,
    whether the lookup fails or not. *)
Lemma add_compound_present compound w :
  select_cid (cid compound) (db w) <> None ->
  db (add_compound compound w).2 = db w /\
  ((add_compound compound w).1 = Ok false \/
   (add_compound compound w).1 = Raise OperationalError /\
   head (faults w) = Some true) /\
  (head (faults w) <> Some true -> (add_compound compound w).1 = Ok false).
Proof.
  intros Hc. unfold add_compound, bind, cid_exists, connect.
  destruct (select_cid (cid compound) (db w)) as [c|]; [|done].
  destruct (faults w) as [|[|] fs]; simpl; intuition congruence.
Qed.

(** *** The link step and the empty name *)

Lemma add_trivial_name_empty_keeps_links c (L : list matches_row) :
  hoare (fun w => CIDNameMatches (db w) = L)
        (add_trivial_name EmptyString c)
        (fun _ w => CIDNameMatches (db w) = L).
Proof.
  unfold add_trivial_name. simpl.
  hoare_step (fun w => CIDNameMatches (db w) = L).
  { hoare_step (fun w => CIDNameMatches (db w) = L). auto. }
  hoare_step (fun w => CIDNameMatches (db w) = L).
  { destruct a; simpl; repeat hoare_step (fun w => CIDNameMatches (db w) = L).
    auto. }
  repeat hoare_step (fun w => CIDNameMatches (db w) = L). auto.
Qed.

Lemma add_trivial_name_links name c w :
  faults w = [] -> str_truthy name = true ->
  exists i,
    select_name_id name (db (add_trivial_name name c w).2) = Some i /\
    CIDNameMatches (db (add_trivial_name name c w).2) =
    CIDNameMatches (db w) ++
    [{| match_ID := next_rowid (seq_CIDNameMatches (db w))
                      (match_ID <$> CIDNameMatches (db w));
        match_NameID := i; match_CID := c |}].
Proof.
  intros Hf Hn. rewrite add_trivial_name_no_faults by done. simpl.
  destruct (select_name_id_name_added name (db w)) as [i Hi].
  exists i. unfold match_added. rewrite Hn, Hi. split; [exact Hi|].
  unfold name_added. by destruct (select_name_id name (db w)).
Qed.




(** C9. With nothing failing, adding the empty name to a store that has no
    row for it inserts that row and returns true, and creates no link
    row. *)
Theorem add_trivial_name_empty_inserts w c :
  faults w = [] -> select_name_id EmptyString (db w) = None ->
  exists w',
    add_trivial_name EmptyString c w = (Ok true, w') /\
    TrivialNames (db w') =
    TrivialNames (db w) ++
    [{| ID := next_rowid (seq_TrivialNames (db w)) (ID <$> TrivialNames (db w));
        Name := EmptyString |}] /\
    CIDNameMatches (db w') = CIDNameMatches (db w).
Proof.
  intros Hf Hn. eexists. rewrite add_trivial_name_no_faults by done.
  rewrite Hn. split; [reflexivity|].
  unfold match_added, name_added. rewrite Hn. simpl. done.
Qed.

Lemma add_trivial_name_empty_inserts_witness :
  exists w',
    add_trivial_name EmptyString 7 world0 = (Ok true, w') /\
    TrivialNames (db w') = [{| ID := 1; Name := EmptyString |}] /\
    CIDNameMatches (db w') = [].
Proof. exact (add_trivial_name_empty_inserts world0 7 eq_refl eq_refl). Defined.

(** *** add_compound twice *)

Lemma Compounds_names_added c names : forall d,
  Compounds (names_added c names d) = Compounds d.
Proof.
  induction names as [|name names IH]; intros d; [done|].
  change (names_added c (name :: names) d)
    with (names_added c names (match_added c name (name_added name d))).
  rewrite IH. unfold match_added, name_added.
  destruct (str_truthy name);
    repeat (match goal with
            | |- context [match ?x with Some _ => _ | None => _ end] =>
                destruct x
            end; simpl); reflexivity.
Qed.

Lemma select_cid_app_row c rows r :
  CID r = c -> head (List.filter (fun r => CID r =? c) (rows ++ [r])) <> None.
Proof.
  intros <-. rewrite List.filter_app. simpl. rewrite Z.eqb_refl.
  by destruct (List.filter _ rows).
Qed.



(** *** The tables after the names of a compound are added *)

Lemma foldr_max_ge (ids : list Z) x : x ∈ ids -> x <= foldr Z.max 0 ids.
Proof.
  induction ids as [|y ids IH]; simpl.
  - intros H. inversion H.
  - intros [->|H]%elem_of_cons; [lia|]. specialize (IH H). lia.
Qed.

Lemma next_rowid_fresh seq (ids : list Z) : next_rowid seq ids ∉ ids.
Proof. intros H%foldr_max_ge. unfold next_rowid in H. lia. Qed.

Lemma sql_insert_trivial_name_ids name d :
  ids_unique d -> ids_unique (sql_insert_trivial_name name d).
Proof.
  unfold ids_unique. intros Hd. simpl. rewrite fmap_app.
  apply NoDup_app. split; [done|]. split.
  - intros x Hx [->|H]%elem_of_cons; [|inversion H].
    by apply next_rowid_fresh in Hx.
  - apply NoDup_singleton.
Qed.

Lemma select_name_id_stable n d d' extra i :
  TrivialNames d' = TrivialNames d ++ extra ->
  select_name_id n d = Some i -> select_name_id n d' = Some i.
Proof.
  unfold select_name_id. intros -> (r & Hr & ->)%fmap_Some.
  by erewrite head_filter_app.
Qed.

Lemma NoDup_fmap_eq {A B} (f : A -> B) (l : list A) x y :
  NoDup (f <$> l) -> x ∈ l -> y ∈ l -> f x = f y -> x = y.
Proof.
  induction l as [|z l IH]; simpl; [by intros _ H; inversion H|].
  intros [Hz Hl]%NoDup_cons [->|Hx]%elem_of_cons [->|Hy]%elem_of_cons Hf;
    auto.
  - exfalso. apply Hz. rewrite Hf. by apply list_elem_of_fmap_2.
  - exfalso. apply Hz. rewrite <- Hf. by apply list_elem_of_fmap_2.
Qed.

(** Two names with the same identity are the same name. *)
Lemma select_name_id_inj d m n i :
  ids_unique d ->
  select_name_id m d = Some i -> select_name_id n d = Some i -> m = n.
Proof.
  intros Hd Hm%select_name_id_Some Hn%select_name_id_Some.
  by pose proof (NoDup_fmap_eq ID _ _ _ Hd Hm Hn eq_refl) as [= ->].
Qed.

(** What one turn of the loop of [add_compound] leaves, nothing failing. *)
Lemma name_linked c name d :
  let d' := match_added c name (name_added name d) in
  exists extra i,
    TrivialNames d' = TrivialNames d ++ extra /\
    select_name_id name d' = Some i /\
    CIDNameMatches d' =
    CIDNameMatches d ++
    (if str_truthy name
     then [{| match_ID := next_rowid (seq_CIDNameMatches d)
                            (match_ID <$> CIDNameMatches d);
              match_NameID := i; match_CID := c |}]
     else []) /\
    (names_unique d -> names_unique d') /\
    (ids_unique d -> ids_unique d').
Proof.
  intros d'. destruct (select_name_id_name_added name d) as [i Hi].
  assert (exists extra,
            TrivialNames (name_added name d) = TrivialNames d ++ extra /\
            CIDNameMatches (name_added name d) = CIDNameMatches d /\
            seq_CIDNameMatches (name_added name d) = seq_CIDNameMatches d /\
            (names_unique d -> names_unique (name_added name d)) /\
            (ids_unique d -> ids_unique (name_added name d)))
    as (extra & Hn & Hm & Hs & Hu & Hk).
  { unfold name_added. destruct (select_name_id name d) eqn:Hd.
    - exists []. by rewrite app_nil_r.
    - eexists. repeat split; try reflexivity.
      + intros. by apply sql_insert_trivial_name_unique.
      + apply sql_insert_trivial_name_ids. }
  exists extra, i. subst d'. unfold match_added. rewrite Hi.
  destruct (str_truthy name); simpl; rewrite ?Hm, ?Hs, ?app_nil_r; auto.
Qed.

Lemma links_of_stable d d' extra c names rows :
  TrivialNames d' = TrivialNames d ++ extra ->
  links_of d c names rows -> links_of d' c names rows.
Proof.
  intros He H. unfold links_of in *. eapply Forall2_impl; [exact H|].
  intros m r [Hm Hc]. eauto using select_name_id_stable.
Qed.

Lemma names_added_spec c names : forall d,
  let d' := names_added c names d in
  exists extra rows,
    TrivialNames d' = TrivialNames d ++ extra /\
    CIDNameMatches d' = CIDNameMatches d ++ rows /\
    links_of d' c names rows /\
    (names_unique d -> names_unique d') /\
    (ids_unique d -> ids_unique d').
Proof.
  induction names as [|name names IH]; intros d.
  - exists [], []. simpl. rewrite !app_nil_r. repeat split; auto.
    constructor.
  - intros d'.
    destruct (name_linked c name d) as (e1 & i & Hn1 & Hi & Hm1 & Hu1 & Hk1).
    set (d1 := match_added c name (name_added name d)) in *.
    destruct (IH d1) as (e2 & r2 & Hn2 & Hm2 & Hl2 & Hu2 & Hk2).
    change d' with (names_added c names d1).
    eexists (e1 ++ e2), _. rewrite Hn2, Hn1, Hm2, Hm1, <- !app_assoc.
    repeat split; auto.
    unfold links_of in *. simpl.
    destruct (str_truthy name); simpl; [|exact Hl2].
    constructor; [|exact Hl2]. simpl. split; [|done].
    eapply select_name_id_stable; [exact Hn2|exact Hi].
Qed.

Lemma filter_nil_iff {A} (p : A -> bool) (l : list A) :
  List.filter p l = [] <-> forall x, x ∈ l -> p x = false.
Proof.
  rewrite <- head_filter_None. by destruct (List.filter p l).
Qed.

Lemma unique_name_row n d i :
  names_unique d -> select_name_id n d = Some i ->
  List.filter (fun r => String.eqb (Name r) n) (TrivialNames d) =
  [{| ID := i; Name := n |}].
Proof.
  unfold names_unique, select_name_id.
  induction (TrivialNames d) as [|y l IH]; simpl; [discriminate|].
  intros [Hy Hl]%NoDup_cons. destruct (String.eqb_spec (Name y) n) as [<-|Hne].
  - simpl. intros [= <-]. destruct y as [yi yn]. simpl in *. f_equal.
    apply filter_nil_iff. intros r Hr. apply String.eqb_neq. intros Heq.
    apply Hy. rewrite <- Heq. by apply list_elem_of_fmap_2.
  - auto.
Qed.

Lemma links_filter_nil {R : string -> matches_row -> Prop}
    (q : matches_row -> bool) n l rows :
  Forall2 R l rows ->
  (forall m r, R m r -> q r = true -> m = n) ->
  n ∉ l -> List.filter q rows = [].
Proof.
  intros HF HR. induction HF as [|m r l rows Hmr _ IH]; [done|].
  intros [Hm Hl]%not_elem_of_cons. simpl. destruct (q r) eqn:Hq.
  - exfalso. apply Hm. symmetry. eauto.
  - auto.
Qed.

Lemma links_filter_one {R : string -> matches_row -> Prop}
    (q : matches_row -> bool) n l rows :
  Forall2 R l rows ->
  (forall m r, R m r -> q r = true <-> m = n) ->
  NoDup l -> n ∈ l ->
  exists r, List.filter q rows = [r] /\ R n r.
Proof.
  intros HF HR. induction HF as [|m r l rows Hmr HF IH]; [by inversion 2|].
  intros [Hm Hl]%NoDup_cons Hn. simpl. destruct (q r) eqn:Hq.
  - apply (HR _ _ Hmr) in Hq as ->. exists r. split; [|done]. f_equal.
    eapply links_filter_nil; [exact HF| |exact Hm].
    intros m' r' Hmr' Hq'. by apply (HR _ _ Hmr').
  - apply elem_of_cons in Hn as [->|Hn]; [|auto].
    pose proof (proj2 (HR _ _ Hmr) eq_refl). congruence.
Qed.

Lemma Forall2_elem_of_left {A B} (R : A -> B -> Prop) l k x :
  Forall2 R l k -> x ∈ l -> exists y, y ∈ k /\ R x y.
Proof.
  induction 1 as [|a b l k Hab _ IH]; [by inversion 1|].
  intros [->|Hx]%elem_of_cons.
  - exists b. split; [left|done].
  - destruct (IH Hx) as (y & Hy & HR). exists y. split; [by right|done].
Qed.

Lemma NoDup_List_filter {A} (p : A -> bool) (l : list A) :
  NoDup l -> NoDup (List.filter p l).
Proof.
  rewrite !NoDup_ListNoDup. apply List.NoDup_filter.
Qed.

(** *** Two compounds that share a name *)

Lemma shared_name_rows w c1 c2 n :
  faults w = [] -> names_unique (db w) -> ids_unique (db w) ->
  cid c1 <> cid c2 ->
  select_cid (cid c1) (db w) = None -> select_cid (cid c2) (db w) = None ->
  NoDup (trivial_names c1) -> NoDup (trivial_names c2) ->
  n ∈ trivial_names c1 -> n ∈ trivial_names c2 -> n <> EmptyString ->
  exists w1 w2 nid r1 r2,
    add_compound c1 w = (Ok true, w1) /\
    add_compound c2 w1 = (Ok true, w2) /\
    List.filter (fun r => String.eqb (Name r) n) (TrivialNames (db w2)) =
    [{| ID := nid; Name := n |}] /\
    List.filter (fun r => match_NameID r =? nid) (CIDNameMatches (db w2)) =
    List.filter (fun r => match_NameID r =? nid) (CIDNameMatches (db w)) ++
    [r1; r2] /\
    match_CID r1 = cid c1 /\ match_CID r2 = cid c2.
Proof.
  intros Hf Hu Hk Hne Hc1 Hc2 Hd1 Hd2 Hn1 Hn2 Hn.
  set (da := sql_insert_compound c1 (db w)).
  set (d1 := names_added (cid c1) (trivial_names c1) da).
  set (w1 := set_db d1 w).
  set (dc := sql_insert_compound c2 d1).
  set (d2 := names_added (cid c2) (trivial_names c2) dc).
  set (w2 := set_db d2 w1).
  assert (add_compound c1 w = (Ok true, w1)) as Hadd1
    by (by apply add_compound_no_faults).
  assert (add_compound c2 w1 = (Ok true, w2)) as Hadd2.
  { apply add_compound_no_faults; [exact Hf|].
    apply select_cid_None. change (db w1) with d1. unfold d1.
    rewrite Compounds_names_added. simpl. rewrite fmap_app.
    apply select_cid_None in Hc2.
    intros [H|H]%elem_of_app; [done|].
    apply list_elem_of_singleton in H. simpl in H. congruence. }
  destruct (names_added_spec (cid c1) (trivial_names c1) da)
    as (e1 & rows1 & HT1 & HM1 & HL1 & HU1 & HK1).
  destruct (names_added_spec (cid c2) (trivial_names c2) dc)
    as (e2 & rows2 & HT2 & HM2 & HL2 & HU2 & HK2).
  fold d1 in HT1, HM1, HL1, HU1, HK1. fold d2 in HT2, HM2, HL2, HU2, HK2.
  change (TrivialNames dc) with (TrivialNames d1) in HT2.
  change (CIDNameMatches dc) with (CIDNameMatches d1) in HM2.
  change (CIDNameMatches da) with (CIDNameMatches (db w)) in HM1.
  assert (names_unique d2) as Hu2 by auto.
  assert (ids_unique d2) as Hk2 by auto.
  assert (links_of d2 (cid c1) (trivial_names c1) rows1) as HL1'
    by eauto using links_of_stable.
  assert (str_truthy n = true) as Htruthy by (by destruct n).
  assert (forall names, n ∈ names -> n ∈ List.filter str_truthy names)
    as Hin.
  { intros names H. apply list_elem_of_In, filter_In.
    split; [by apply list_elem_of_In|done]. }
  destruct (Forall2_elem_of_left _ _ _ n HL2 (Hin _ Hn2))
    as (r0 & _ & Hnid & _).
  set (nid := match_NameID r0) in *.
  assert (forall c m r,
            select_name_id m d2 = Some (match_NameID r) /\ match_CID r = c ->
            (match_NameID r =? nid) = true <-> m = n) as HR.
  { intros c m r [Hm _]. rewrite Z.eqb_eq. split.
    - intros Heq. rewrite Heq in Hm. by eapply select_name_id_inj.
    - intros ->. congruence. }
  destruct (links_filter_one (fun r => match_NameID r =? nid) n _ _ HL1'
              (HR (cid c1)) (NoDup_List_filter _ _ Hd1) (Hin _ Hn1))
    as (r1 & Hr1 & _ & Hcid1).
  destruct (links_filter_one (fun r => match_NameID r =? nid) n _ _ HL2
              (HR (cid c2)) (NoDup_List_filter _ _ Hd2) (Hin _ Hn2))
    as (r2 & Hr2 & _ & Hcid2).
  exists w1, w2, nid, r1, r2. repeat split; auto.
  - by apply unique_name_row.
  - change (db w2) with d2.
    rewrite HM2, HM1, !List.filter_app, Hr1, Hr2, <- app_assoc. reflexivity.
Qed.




(** * Properties of the ingestion loop *)

Lemma hoare_connect_keep {A} (I : world -> Prop)
    (stmt : database -> outcome (A * database)) :
  (forall w fs, I w -> I (set_faults fs w)) ->
  (forall w fs a d,
     I w -> stmt (db w) = Ok (a, d) -> I (set_db d (set_faults fs w))) ->
  hoare I (connect stmt) (fun _ w => I w).
Proof.
  intros Hf Hs. apply hoare_connect; [auto|].
  intros w Hw. destruct (stmt (db w)) as [[a d]|e] eqn:Hst; eauto.
Qed.

(** The store never touches the list of requests. *)
Lemma add_trivial_name_requests name c (rq : list Z) :
  hoare (fun w => requests w = rq) (add_trivial_name name c)
        (fun _ w => requests w = rq).
Proof.
  unfold add_trivial_name, trivial_name_exists, insert_trivial_name,
    get_trivial_name_id, insert_cid_name_match.
  hoare_step (fun w => requests w = rq);
    [apply hoare_connect_keep; auto|].
  hoare_step (fun w => requests w = rq).
  { destruct a; simpl; [by apply hoare_ret|].
    hoare_step (fun w => requests w = rq);
      [apply hoare_connect_keep; auto | by apply hoare_ret]. }
  hoare_step (fun w => requests w = rq);
    [apply hoare_connect_keep; auto|].
  hoare_step (fun w => requests w = rq); [|by apply hoare_ret].
  destruct (str_truthy name); [|by apply hoare_ret].
  apply hoare_connect_keep; auto.
Qed.

Lemma add_compound_requests compound (rq : list Z) :
  hoare (fun w => requests w = rq) (add_compound compound)
        (fun _ w => requests w = rq).
Proof.
  unfold add_compound, cid_exists, insert_compound.
  hoare_step (fun w => requests w = rq);
    [apply hoare_connect_keep; auto|].
  destruct a; [by apply hoare_ret|].
  hoare_step (fun w => requests w = rq);
    [apply hoare_connect_keep; auto|].
  hoare_step (fun w => requests w = rq); [|by apply hoare_ret].
  apply hoare_for_in. intros _ name _.
  hoare_step (fun w => requests w = rq); [|by apply hoare_ret].
  apply add_trivial_name_requests.
Qed.

(** Adding a compound writes no Compounds row for another CID. *)
Lemma select_cid_insert_other compound c d :
  cid compound <> c -> select_cid c d = None ->
  select_cid c (sql_insert_compound compound d) = None.
Proof.
  rewrite !select_cid_None. simpl. rewrite fmap_app.
  intros Hne Hd [H|H]%elem_of_app; [done|].
  apply list_elem_of_singleton in H. simpl in H. congruence.
Qed.

Lemma add_trivial_name_keeps_absent name c0 c :
  hoare (fun w => select_cid c (db w) = None) (add_trivial_name name c0)
        (fun _ w => select_cid c (db w) = None).
Proof.
  unfold add_trivial_name, trivial_name_exists, insert_trivial_name,
    get_trivial_name_id, insert_cid_name_match.
  set (I := fun w => select_cid c (db w) = None).
  assert (forall A (stmt : database -> outcome (A * database)),
            (forall d a d', stmt d = Ok (a, d') ->
                            Compounds d' = Compounds d) ->
            hoare I (connect stmt) (fun _ w => I w)) as Hconnect.
  { intros A stmt Hst. apply hoare_connect_keep; [auto|].
    intros w fs a d Hw Hd. unfold I, select_cid in *. simpl.
    by rewrite (Hst _ _ _ Hd). }
  hoare_step I.
  { apply Hconnect. intros d a d' H. simpl in H. by injection H as _ <-. }
  hoare_step I.
  { destruct a; simpl; [by apply hoare_ret|].
    hoare_step I; [|by apply hoare_ret].
    apply Hconnect. intros d a d' H. simpl in H. by injection H as _ <-. }
  hoare_step I.
  { apply Hconnect. intros d a' d' H. simpl in H. by injection H as _ <-. }
  hoare_step I; [|by apply hoare_ret].
  destruct (str_truthy name); [|by apply hoare_ret].
  apply Hconnect. intros d a' d' H. simpl in H.
  case_match; [|discriminate]. by injection H as _ <-.
Qed.

Lemma add_compound_keeps_absent compound c :
  cid compound <> c ->
  hoare (fun w => select_cid c (db w) = None) (add_compound compound)
        (fun _ w => select_cid c (db w) = None).
Proof.
  intros Hne. unfold add_compound, cid_exists, insert_compound.
  set (I := fun w => select_cid c (db w) = None).
  hoare_step I.
  { apply hoare_connect_keep; [auto|]. by intros w fs a d Hw [= _ <-]. }
  destruct a; [by apply hoare_ret|].
  hoare_step I.
  { apply hoare_connect_keep; [auto|]. intros w fs a d Hw.
    destruct (select_cid (cid compound) (db w)); [discriminate|].
    intros [= _ <-]. by apply select_cid_insert_other. }
  hoare_step I; [|by apply hoare_ret].
  apply hoare_for_in. intros _ name _.
  hoare_step I; [|by apply hoare_ret].
  apply add_trivial_name_keeps_absent.
Qed.

Section IngestionProperties.

Variable pubchem : Z -> option pcp_Compound.
Variable tuple_of_set : list string -> list string.

(** [get_compound] never raises: it asks for [c] once and returns what
    the record of [c] determines. *)
Lemma get_compound_fetched c w :
  exists out,
    get_compound pubchem tuple_of_set c w =
    (Ok (fetched pubchem tuple_of_set c),
     {| db := db w; faults := faults w; requests := requests w ++ [c];
        stdout := stdout w ++ out |}).
Proof.
  unfold get_compound, try_except, bind, from_cid, fetched, raise, ret,
    print, attr_truthy.
  destruct (pubchem c) as [[[s|] [n|] [l|]]|]; simpl;
    try (destruct (str_truthy s)); try (destruct (str_truthy n)); simpl;
    first [ by exists []; rewrite app_nil_r | by eexists [_] ].
Qed.

Lemma fetched_cid c compound :
  fetched pubchem tuple_of_set c = Some compound -> cid compound = c.
Proof.
  unfold fetched.
  destruct (pubchem c) as [[[s|] [n|] [l|]]|]; try discriminate.
  destruct (_ && _); [|discriminate]. by intros [= <-].
Qed.

Lemma fetched_incomplete c :
  incomplete pubchem c -> fetched pubchem tuple_of_set c = None.
Proof.
  intros (r & Hr & Ha). unfold fetched. rewrite Hr.
  destruct r as [[s|] [n|] [l|]]; simpl in *; try reflexivity.
  by rewrite Ha.
Qed.

(** The guarded call of [add_compound] in the loop never raises. *)
Lemma guarded_add_compound compound w :
  exists resp w',
    try_except (add_compound compound)
      (fun ex => print (ErrorWriting ex) ;; ret false) w = (Ok resp, w') /\
    requests w' = requests w /\
    db w' = db (add_compound compound w).2 /\
    (forall e, (add_compound compound w).1 = Raise e -> resp = false).
Proof.
  pose proof (add_compound_requests compound (requests w) w eq_refl) as Hrq.
  unfold try_except. destruct (add_compound compound w) as [[resp|e] w1].
  - exists resp, w1. simpl in *. repeat split; auto. discriminate.
  - eexists false, _. simpl in *. repeat split; auto.
Qed.

(** One turn of the loop never raises; it asks for [c] once and appends
    [c] to the list exactly when the compound was not added. *)
Lemma run_cids_body_total broken_cids c w :
  exists (resp : bool) w1 w',
    get_compound pubchem tuple_of_set c w =
    (Ok (fetched pubchem tuple_of_set c), w1) /\
    db w1 = db w /\
    run_cids_body pubchem tuple_of_set broken_cids c w =
    (Ok (if resp then broken_cids else broken_cids ++ [c]), w') /\
    requests w' = requests w ++ [c] /\
    match fetched pubchem tuple_of_set c with
    | Some compound =>
        db w' = db (add_compound compound w1).2 /\
        forall e, (add_compound compound w1).1 = Raise e -> resp = false
    | None => resp = false /\ db w' = db w
    end.
Proof.
  unfold run_cids_body.
  destruct (get_compound_fetched c w) as [out Hget].
  erewrite bind_Ok by exact Hget.
  destruct (fetched pubchem tuple_of_set c) as [compound|].
  - destruct (guarded_add_compound compound
                {| db := db w; faults := faults w;
                   requests := requests w ++ [c];
                   stdout := stdout w ++ out |})
      as (resp & w2 & Htry & Hrq & Hdb & Hraise).
    erewrite bind_Ok by exact Htry.
    exists resp. eexists. destruct resp; eexists;
      (split; [exact Hget|]); (split; [reflexivity|]);
      (split; [reflexivity|]); simpl; auto.
  - exists false. do 2 eexists. split; [exact Hget|].
    split; [reflexivity|]. split; [reflexivity|]. simpl. auto.
Qed.

Local Notation "'body'" := (run_cids_body pubchem tuple_of_set).

(** The loop never raises; it asks for every element of [l], in order. *)
Lemma for_in_body_total l : forall acc w,
  exists broken w',
    for_in l body acc w = (Ok (acc ++ broken), w') /\
    requests w' = requests w ++ l /\
    (forall x, x ∈ broken -> x ∈ l) /\
    (forall c, c ∈ l -> fetched pubchem tuple_of_set c = None ->
               c ∈ broken).
Proof.
  induction l as [|c l IH]; intros acc w.
  - exists [], w. simpl. rewrite !app_nil_r.
    split; [done|]. split; [done|]. split; intros x H; inversion H.
  - destruct (run_cids_body_total acc c w)
      as (resp & w1 & w2 & _ & _ & Hbody & Hrq & Hf).
    destruct (IH (if resp then acc else acc ++ [c]) w2)
      as (broken & w' & Hloop & Hrq' & Hsub & Hnone).
    exists ((if resp then [] else [c]) ++ broken), w'.
    cbn [for_in]. erewrite bind_Ok by exact Hbody. rewrite Hloop, Hrq', Hrq.
    rewrite <- !app_assoc. split; [|split; [done|split]].
    + by destruct resp; rewrite ?app_nil_r, <- ?app_assoc.
    + intros x [Hx|Hx]%elem_of_app; [|right; auto].
      destruct resp; [inversion Hx|].
      apply list_elem_of_singleton in Hx as ->. left.
    + intros x [->|Hx]%elem_of_cons Hfx.
      * rewrite Hfx in Hf. destruct Hf as [-> _].
        apply elem_of_app. left. left.
      * apply elem_of_app. right. auto.
Qed.

(** A turn of the loop writes no Compounds row for a CID whose record
    yields no compound. *)
Lemma run_cids_body_keeps_absent c broken_cids c' :
  fetched pubchem tuple_of_set c = None ->
  hoare (fun w => select_cid c (db w) = None) (body broken_cids c')
        (fun _ w => select_cid c (db w) = None).
Proof.
  intros Hc w Hw.
  destruct (run_cids_body_total broken_cids c' w)
    as (resp & w1 & w2 & _ & Hdb1 & -> & _ & Hf).
  simpl. destruct (fetched pubchem tuple_of_set c') as [compound|] eqn:Hc'.
  - destruct Hf as [-> _].
    apply (add_compound_keeps_absent compound c).
    + rewrite (fetched_cid _ _ Hc'). intros ->. congruence.
    + by rewrite Hdb1.
  - destruct Hf as [_ ->]. exact Hw.
Qed.

(** The loop never raises: it returns its not-added list, having asked
    for every identifier of the range in order; an identifier on which
    [add_compound] raised is in that list. *)
Lemma run_cids_loop_total start_cid count w :
  exists broken_cids w',
    run_cids_loop pubchem tuple_of_set start_cid count w =
    (Ok broken_cids, w') /\
    requests w' = requests w ++ seqZ start_cid count /\
    (forall x, x ∈ broken_cids -> x ∈ seqZ start_cid count) /\
    forall k, 0 <= k < count ->
      exists broken_k w_k,
        run_cids_loop pubchem tuple_of_set start_cid k w =
        (Ok broken_k, w_k) /\
        forall compound w1 e w2,
          get_compound pubchem tuple_of_set (start_cid + k) w_k =
          (Ok (Some compound), w1) ->
          add_compound compound w1 = (Raise e, w2) ->
          start_cid + k ∈ broken_cids.
Proof.
  unfold run_cids_loop.
  destruct (for_in_body_total (seqZ start_cid count) [] w)
    as (broken & w' & Hloop & Hrq & Hsub & _).
  exists broken, w'. split; [exact Hloop|]. split; [exact Hrq|].
  split; [exact Hsub|]. intros k Hk.
  destruct (for_in_body_total (seqZ start_cid k) [] w)
    as (broken_k & w_k & Hloop_k & _).
  exists broken_k, w_k. split; [exact Hloop_k|].
  intros compound w1 e w2 Hget Hadd.
  replace count with (k + (1 + (count - k - 1))) in Hloop by lia.
  rewrite seqZ_app, (seqZ_cons (start_cid + k)) in Hloop by lia.
  rewrite for_in_app in Hloop. erewrite bind_Ok in Hloop by exact Hloop_k.
  cbn [for_in] in Hloop.
  destruct (run_cids_body_total broken_k (start_cid + k) w_k)
    as (resp & w1' & w3 & Hget' & _ & Hbody & _ & Hf).
  rewrite Hget in Hget'. injection Hget' as Hfetched Hw1.
  rewrite <- Hfetched in Hf. subst w1'. destruct Hf as [_ Hraise].
  rewrite (Hraise e) in Hbody by (by rewrite Hadd).
  erewrite bind_Ok in Hloop by exact Hbody.
  destruct (for_in_body_total
              (seqZ (Z.succ (start_cid + k)) (Z.pred (1 + (count - k - 1))))
              (broken_k ++ [start_cid + k]) w3)
    as (rest & w4 & Hrest & _).
  rewrite Hrest in Hloop. injection Hloop as Hb _. simpl in Hb.
  rewrite <- Hb, !elem_of_app. left. right. left.
Qed.

Lemma start_after_or_zero max_cid : start_after max_cid = or_zero max_cid + 1.
Proof.
  destruct max_cid as [m|]; simpl; [|reflexivity].
  destruct (Z.eqb_spec m 0); lia.
Qed.

(** When the two blocks before the loop do not fail, [run_cids] runs the
    loop from the identifier after the largest CID, returns, and prints
    the report made from the list the loop has built. *)
Lemma run_cids_returns count w :
  fault_at 0 w = false -> fault_at 1 w = false ->
  let start_cid := start_after (select_max_cid (db w)) in
  exists broken_cids w1 w',
    run_cids_loop pubchem tuple_of_set start_cid count
      {| db := db w; faults := tail (tail (faults w));
         requests := requests w;
         stdout := (stdout w ++ [RunStarting]) ++
                   [FromCount start_cid count] |} = (Ok broken_cids, w1) /\
    run_cids pubchem tuple_of_set count w = (Ok tt, w') /\
    db w' = db w1 /\
    requests w' = requests w ++ seqZ start_cid count /\
    (broken_cids <> [] -> BrokenCids broken_cids ∈ stdout w').
Proof.
  destruct w as [d fs rq out]. unfold fault_at. simpl. intros H0 H1.
  assert (connect (fun d => Ok (tt, d))
            {| db := d; faults := fs; requests := rq;
               stdout := out ++ [RunStarting] |} =
          (Ok tt, {| db := d; faults := tail fs; requests := rq;
                     stdout := out ++ [RunStarting] |}) /\
          connect (fun d => Ok (select_max_cid d, d))
            {| db := d; faults := tail fs; requests := rq;
               stdout := out ++ [RunStarting] |} =
          (Ok (select_max_cid d),
           {| db := d; faults := tail (tail fs); requests := rq;
              stdout := out ++ [RunStarting] |})) as (Hcreate & Hmax).
  { destruct fs as [|[|] [|[|] fs]]; try discriminate; split; reflexivity. }
  destruct (for_in_body_total
              (seqZ (start_after (select_max_cid d)) count) []
              {| db := d; faults := tail (tail fs); requests := rq;
                 stdout := (out ++ [RunStarting]) ++
                           [FromCount (start_after (select_max_cid d))
                              count] |})
    as (broken & w1 & Hloop & Hrq & _).
  change ([] ++ broken) with broken in Hloop.
  exists broken, w1. unfold run_cids.
  erewrite bind_Ok by reflexivity.
  erewrite bind_Ok by exact Hcreate.
  erewrite bind_Ok by exact Hmax.
  erewrite bind_Ok by reflexivity.
  erewrite bind_Ok by exact Hloop.
  erewrite bind_Ok by reflexivity.
  erewrite bind_Ok by reflexivity.
  destruct (Z.eqb_spec (Z.of_nat (List.length broken)) 0) as [Hlen|Hlen];
    eexists; (split; [exact Hloop|]); (split; [reflexivity|]); simpl;
    (split; [reflexivity|]); (split; [exact Hrq|]).
  - destruct broken; [done|discriminate].
  - intros _. apply elem_of_app. right. left.
Qed.

(** The range of a run holds no stored CID. *)
Lemma range_not_stored d count c :
  c ∈ seqZ (start_after (select_max_cid d)) count -> select_cid c d = None.
Proof.
  intros [Hc _]%elem_of_seqZ. apply select_cid_None. intros Hin.
  destruct (select_max_cid d) as [m|] eqn:Hm.
  - apply select_max_cid_spec in Hm as [_ Hle]. specialize (Hle c Hin).
    simpl in Hc. destruct (Z.eqb_spec m 0); lia.
  - unfold select_max_cid in Hm.
    destruct (Compounds d); [inversion Hin|discriminate].
Qed.

(** C6. A record that lacks a canonical structure or a preferred name
    yields no compound: [get_compound] returns [None], and the turn of the
    loop for its identifier writes nothing and appends the identifier to
    the not-added list.  After a loop over a range that holds the
    identifier, it is in the list the loop returns and, if it had no
    Compounds row before, it has none after.  After a whole run whose
    range holds it, it is in the list of the report and has no Compounds
    row. *)
Theorem incomplete_record_not_added c :
  incomplete pubchem c ->
  (forall w, exists w1,
     get_compound pubchem tuple_of_set c w = (Ok None, w1) /\
     db w1 = db w) /\
  (forall broken_cids w, exists w1,
     run_cids_body pubchem tuple_of_set broken_cids c w =
     (Ok (broken_cids ++ [c]), w1) /\
     db w1 = db w) /\
  (forall start_cid count w,
     c ∈ seqZ start_cid count ->
     exists broken_cids w',
       run_cids_loop pubchem tuple_of_set start_cid count w =
       (Ok broken_cids, w') /\
       c ∈ broken_cids /\
       (select_cid c (db w) = None -> select_cid c (db w') = None)) /\
  (forall count w,
     fault_at 0 w = false -> fault_at 1 w = false ->
     c ∈ seqZ (or_zero (select_max_cid (db w)) + 1) count ->
     exists broken_cids w',
       run_cids pubchem tuple_of_set count w = (Ok tt, w') /\
       c ∈ broken_cids /\
       BrokenCids broken_cids ∈ stdout w' /\
       select_cid c (db w') = None).
Proof.
  intros Hc%(fetched_incomplete c).
  assert (forall start_cid count w,
            c ∈ seqZ start_cid count ->
            exists broken_cids w',
              run_cids_loop pubchem tuple_of_set start_cid count w =
              (Ok broken_cids, w') /\
              c ∈ broken_cids /\
              (select_cid c (db w) = None -> select_cid c (db w') = None))
    as Hloop.
  { intros start_cid count w Hin.
    destruct (for_in_body_total (seqZ start_cid count) [] w)
      as (broken & w' & Hloop & _ & _ & Hnone).
    exists broken, w'. split; [exact Hloop|]. split; [auto|].
    intros Hw.
    pose proof (hoare_for_in (fun w => select_cid c (db w) = None)
                  (seqZ start_cid count) body
                  (fun acc x _ => run_cids_body_keeps_absent c acc x Hc)
                  [] w Hw) as H.
    unfold run_cids_loop in Hloop. by rewrite Hloop in H. }
  split; [|split; [|split; [exact Hloop|]]].
  - intros w.
    destruct (run_cids_body_total [] c w)
      as (resp & w1 & w' & Hget & Hdb & _).
    rewrite Hc in Hget. eauto.
  - intros broken_cids w.
    destruct (run_cids_body_total broken_cids c w)
      as (resp & w1' & w1 & _ & _ & Hbody & _ & Hf).
    rewrite Hc in Hf. destruct Hf as [Hresp Hdb]. subst resp. eauto.
  - intros count w H0 H1. rewrite <- start_after_or_zero. intros Hin.
    destruct (run_cids_returns count w H0 H1)
      as (broken & w1 & w' & Hrun_loop & Hrun & Hdb & _ & Hout).
    destruct (Hloop _ _
                {| db := db w; faults := tail (tail (faults w));
                   requests := requests w;
                   stdout :=
                     (stdout w ++ [RunStarting]) ++
                     [FromCount (start_after (select_max_cid (db w)))
                        count] |} Hin)
      as (broken' & w1' & Hloop' & Hb & Habsent).
    rewrite Hrun_loop in Hloop'. injection Hloop' as <- <-.
    exists broken, w'. split; [exact Hrun|]. split; [exact Hb|]. split.
    + apply Hout. intros ->. inversion Hb.
    + rewrite Hdb. apply Habsent. simpl. by eapply range_not_stored.
Qed.

(** C1, amended. Every element of the list [filter_names] returns is a
    string of the input, unquoted, and holds neither a run of two or more
    digits nor a comma followed by a space.  The list is not deduplicated
    there; [get_compound] passes it through a set, so the trivial names of
    the compound it builds are those elements, each once. *)
Theorem filter_names_then_set :
  set_order tuple_of_set ->
  (forall names x,
     x ∈ filter_names names ->
     (exists s, PyStr s ∈ names /\ x = unquote s) /\
     ~ has_digit_run x /\ ~ has_substring ", " x) /\
  (forall c w compound w',
     get_compound pubchem tuple_of_set c w = (Ok (Some compound), w') ->
     NoDup (trivial_names compound) /\
     exists r l,
       pubchem c = Some r /\ synonyms r = Some l /\
       forall x, x ∈ trivial_names compound <-> x ∈ filter_names l).
Proof.
  intros Horder. split.
  - intros names x (s & Hs & Hre & ->)%elem_of_filter_names.
    split; [by exists s|].
    assert (re_search pattern (unquote s) <> true) as Hno.
    { intros H. apply (re_search_pattern_substring _ s) in H.
      - congruence.
      - apply unquote_has_substring. }
    rewrite re_search_pattern_spec in Hno. tauto.
  - intros c w compound w' Hget.
    destruct (get_compound_fetched c w) as [out Hget'].
    rewrite Hget in Hget'. injection Hget' as Hf _. symmetry in Hf.
    unfold fetched in Hf.
    destruct (pubchem c) as [[[s|] [n|] [l|]]|]; try discriminate.
    destruct (_ && _); [|discriminate]. injection Hf as <-. simpl.
    destruct (Horder (filter_names l)) as [Hnd Hel].
    split; [exact Hnd|]. eauto.
Qed.

(** C5. When the two blocks before the loop do not fail, [run_cids]
    returns, and what it has asked the remote service for is exactly the
    range of [count] identifiers that begins at [(max_cid or 0) + 1], each
    once and in ascending order, whatever the fetches and the later blocks
    do. *)
Theorem run_cids_attempts count w :
  fault_at 0 w = false -> fault_at 1 w = false ->
  exists w',
    run_cids pubchem tuple_of_set count w = (Ok tt, w') /\
    requests w' =
    requests w ++ seqZ (or_zero (select_max_cid (db w)) + 1) count.
Proof.
  intros H0 H1. rewrite <- start_after_or_zero.
  destruct (run_cids_returns count w H0 H1)
    as (broken & w1 & w' & _ & Hrun & _ & Hrq & _).
  eauto.
Qed.


End IngestionProperties.

(** * The theorems at concrete inputs *)

Lemma remove_dups_set_order : set_order remove_dups.
Proof.
  intros l. split; [apply NoDup_remove_dups|].
  intros x. apply elem_of_remove_dups.
Qed.

Lemma filter_names_then_set_witness :
  ((exists s,
      PyStr s ∈ [PyStr "Acetone"; PyStr (quoted "quoted")] /\
      "quoted" = unquote s) /\
   ~ has_digit_run "quoted" /\ ~ has_substring ", " "quoted") /\
  NoDup (remove_dups ["Acetone"; "Acetone"; "quoted"]).
Proof.
  destruct (filter_names_then_set pubchem_example remove_dups
              remove_dups_set_order) as [Hfilter Hset].
  split.
  - apply (Hfilter [PyStr "Acetone"; PyStr (quoted "quoted")] "quoted").
    right. left.
  - apply (Hset 1 world0
             {| cid := 1; smiles := "CC(=O)C"; iupac_name := "propan-2-one";
                trivial_names :=
                  remove_dups ["Acetone"; "Acetone"; "quoted"] |}
             {| db := empty_database; faults := []; requests := [1];
                stdout := [] |}).
    reflexivity.
Defined.

Lemma run_cids_attempts_witness :
  exists w',
    run_cids pubchem_example remove_dups 3 world0 = (Ok tt, w') /\
    requests w' =
    requests world0 ++ seqZ (or_zero (select_max_cid (db world0)) + 1) 3.
Proof.
  exact (run_cids_attempts pubchem_example remove_dups 3 world0
           eq_refl eq_refl).
Defined.

Lemma incomplete_record_not_added_witness :
  exists broken_cids w',
    run_cids pubchem_example remove_dups 3 world0 = (Ok tt, w') /\
    2 ∈ broken_cids /\
    BrokenCids broken_cids ∈ stdout w' /\
    select_cid 2 (db w') = None.
Proof.
  assert (incomplete pubchem_example 2) as H
    by (eexists; split; reflexivity).
  apply (proj2 (proj2 (proj2
           (incomplete_record_not_added pubchem_example remove_dups 2 H)))
           3 world0 eq_refl eq_refl).
  apply elem_of_seqZ. simpl. lia.
Defined.

(** A run of three identifiers in which the third [with] block of the
    loop fails: identifier 1 is fetched, its Compounds row is written, the
    failure is caught, and the loop goes on to 2 and 3. *)
Example run_cids_loop_fault :
  let w := set_faults [false; false; true] world0 in
  exists w',
    run_cids_loop pubchem_example remove_dups 1 3 w = (Ok [1; 2; 3], w') /\
    requests w' = [1; 2; 3] /\
    stdout w' = [ErrorWriting OperationalError; CidNotAdded 1;
                 CidNotAdded 2;
                 ErrorFetching 3 PubChemError; CidNotAdded 3] /\
    Compounds (db w') =
    [{| CID := 1; IUPAC := "propan-2-one"; Smiles := "CC(=O)C" |}].
Proof. eexists. vm_compute. repeat split. Qed.



(** * Further properties of the name filter *)

(** X1. The pattern of [filter_names] finds something in a string exactly
    when the string holds two adjacent digits or a comma followed by a
    space. *)
Theorem pattern_finds_digit_run_or_comma_space s :
  re_search pattern s = true <-> has_digit_run s \/ has_substring ", " s.
Proof. apply re_search_pattern_spec. Qed.

Lemma length_omap_le {A B} (f : A -> option B) (l : list A) :
  (List.length (omap f l) <= List.length l)%nat.
Proof.
  induction l as [|x l IH]; simpl; [lia|].
  change (list_omap A B f l) with (omap f l).
  destruct (f x); simpl; lia.
Qed.

(** X2. The loop that rewrites the list in place is a map: the result of
    [filter_names] is the strings of the input that the pattern does not
    match, in input order, each unquoted.  So the result is never longer
    than the input, and filtering a concatenation is concatenating the
    filtered parts. *)
Theorem filter_names_in_order :
  (forall names,
     filter_names names =
     unquote <$> List.filter (fun s => negb (re_search pattern s))
                   (omap isinstance_str names)) /\
  (forall names,
     (List.length (filter_names names) <= List.length names)%nat) /\
  (forall names1 names2,
     filter_names (names1 ++ names2) =
     filter_names names1 ++ filter_names names2).
Proof.
  split; [exact filter_names_eq|]. split.
  - intros names. rewrite filter_names_eq, length_fmap.
    etransitivity; [apply List.filter_length_le|apply length_omap_le].
  - intros names1 names2.
    by rewrite !filter_names_eq, omap_app, List.filter_app, fmap_app.
Qed.

(** *** Names in quotes *)

Lemma str_length_app s t :
  String.length (s +:+ t) = (String.length s + String.length t)%nat.
Proof.
  induction s as [|a s IH]; [reflexivity|].
  rewrite str_app_cons. simpl. by rewrite IH.
Qed.

Lemma substring_0_app s t : substring 0 (String.length s) (s +:+ t) = s.
Proof.
  induction s as [|a s IH].
  - by destruct t.
  - rewrite str_app_cons. simpl. by rewrite IH.
Qed.

Lemma substring_last s c :
  substring (String.length s) 1 (s +:+ String c EmptyString) =
  String c EmptyString.
Proof.
  induction s as [|a s IH]; [reflexivity|].
  rewrite str_app_cons. simpl. exact IH.
Qed.

Lemma pattern_pair_dquote_r a : pattern_pair a dquote = false.
Proof.
  unfold pattern_pair.
  replace (is_digit dquote) with false by reflexivity.
  replace (Ascii.eqb " "%char dquote) with false by reflexivity.
  by rewrite !andb_false_r.
Qed.

Lemma re_search_pattern_cons a s :
  re_search pattern (String a s) =
  match s with
  | String b _ => pattern_pair a b
  | EmptyString => false
  end || re_search pattern s.
Proof.
  cbn [re_search]. rewrite re_match_pattern. by destruct s.
Qed.

Lemma re_search_pattern_dquote_r s :
  re_search pattern (s +:+ String dquote EmptyString) = re_search pattern s.
Proof.
  induction s as [|a s IH]; [reflexivity|].
  rewrite str_app_cons, !re_search_pattern_cons, IH.
  destruct s as [|b s]; [|by rewrite str_app_cons].
  change (EmptyString +:+ String dquote EmptyString)
    with (String dquote EmptyString).
  cbv beta iota. by rewrite pattern_pair_dquote_r.
Qed.

Lemma re_search_pattern_quoted s :
  re_search pattern (quoted s) = re_search pattern s.
Proof.
  unfold quoted. rewrite re_search_pattern_cons, re_search_pattern_dquote_r.
  by destruct (s +:+ String dquote EmptyString).
Qed.

Lemma unquote_quoted s : unquote (quoted s) = s.
Proof.
  unfold unquote, quoted, startswith, endswith, slice.
  cbn [String.prefix String.length].
  destruct (ascii_dec dquote dquote) as [_|Hne]; [|done].
  rewrite str_length_app. cbn [String.length].
  replace (S (String.length s + 1) - 1)%nat
    with (S (String.length s)) by lia.
  replace (1 <=? S (String.length s + 1))%nat with true
    by (symmetry; apply Nat.leb_le; lia).
  cbn [substring]. rewrite substring_last, String.eqb_refl.
  cbn [andb].
  replace (1 <? 0) with false by reflexivity.
  replace (-1 <? 0) with true by reflexivity.
  replace (Z.to_nat (Z.min 1 (Z.of_nat (S (String.length s + 1)))))
    with 1%nat by lia.
  replace (Z.to_nat
             (Z.max 0 (-1 + Z.of_nat (S (String.length s + 1))) -
              Z.min 1 (Z.of_nat (S (String.length s + 1)))))
    with (String.length s) by lia.
  cbn [substring].
  replace (String.prefix EmptyString (s +:+ String dquote EmptyString))
    with true by (by destruct (s +:+ String dquote EmptyString)).
  apply substring_0_app.
Qed.

(** X3. Removing the quotes undoes wrapping a name in them, whatever the
    name: exactly one pair is removed, so a name wrapped twice keeps one
    pair.  Wrapping changes nothing for the pattern, so a wrapped name
    that the pattern does not match comes out of the filter as the name
    itself. *)
Theorem filter_names_unwraps_once s :
  unquote (quoted s) = s /\
  unquote (quoted (quoted s)) = quoted s /\
  re_search pattern (quoted s) = re_search pattern s /\
  (re_search pattern s = false -> filter_names [PyStr (quoted s)] = [s]).
Proof.
  split; [apply unquote_quoted|]. split; [apply unquote_quoted|].
  split; [apply re_search_pattern_quoted|].
  intros Hs. rewrite filter_names_eq.
  change (omap isinstance_str [PyStr (quoted s)]) with [quoted s].
  cbn [List.filter]. rewrite re_search_pattern_quoted, Hs. cbn [negb].
  change (unquote <$> [quoted s]) with [unquote (quoted s)].
  by rewrite unquote_quoted.
Qed.

Lemma filter_names_unwraps_once_witness :
  unquote (quoted "Aspirin") = "Aspirin" /\
  unquote (quoted (quoted "Aspirin")) = quoted "Aspirin" /\
  re_search pattern (quoted "Aspirin") = re_search pattern "Aspirin" /\
  filter_names [PyStr (quoted "Aspirin")] = ["Aspirin"].
Proof.
  destruct (filter_names_unwraps_once "Aspirin") as (H1 & H2 & H3 & H4).
  exact (conj H1 (conj H2 (conj H3 (H4 eq_refl)))).
Defined.

(** * Further properties of the store *)

(** What [add_trivial_name] keeps: a property of the tables that the two
    inserts keep, each under the condition in which the method runs it,
    is kept by the method, whatever fails. *)
Lemma add_trivial_name_keeps (I : database -> Prop) name c :
  (forall d, I d -> select_name_id name d = None ->
             I (sql_insert_trivial_name name d)) ->
  (forall d n, I d -> select_name_id name d = Some n ->
               str_truthy name = true ->
               I (sql_insert_cid_name_match c n d)) ->
  hoare (fun w => I (db w)) (add_trivial_name name c)
        (fun _ w => I (db w)).
Proof.
  intros Hname Hmatch. unfold add_trivial_name.
  eapply hoare_bind with
    (R := fun r w => I (db w) /\
                     (r = Ok false -> select_name_id name (db w) = None)).
  - apply hoare_connect; simpl; [by intuition|].
    intros w Hw. split; [done|]. by destruct (select_name_id name (db w)).
  - intros found. eapply hoare_bind with (R := fun _ w => I (db w)).
    + destruct found; simpl.
      * apply hoare_ret. tauto.
      * eapply hoare_bind with (R := fun _ w => I (db w)).
        -- apply hoare_connect; simpl; [tauto|].
           intros w [Hw Hn]. auto.
        -- intros _. by apply hoare_ret.
        -- auto.
    + intros inserted. eapply hoare_bind with
        (R := fun r w => I (db w) /\
                         forall o, r = Ok o -> o = select_name_id name (db w)).
      * apply hoare_connect; simpl; [by intuition|].
        intros w Hw. split; [done|]. by intros o [= <-].
      * intros name_id. eapply hoare_bind with (R := fun _ w => I (db w)).
        -- destruct (str_truthy name) eqn:Hname_truthy;
             [|apply hoare_ret; tauto].
           apply hoare_connect; simpl; [tauto|].
           intros w [Hw Hid]. destruct name_id as [n|]; [|done].
           simpl. apply Hmatch; auto. symmetry. by apply Hid.
        -- intros _. by apply hoare_ret.
        -- auto.
      * simpl. tauto.
    + auto.
  - simpl. tauto.
Qed.

(** What [add_compound] keeps: [P] holds before, [I] from the insert of
    the compound on. *)
Lemma add_compound_keeps (P I : database -> Prop) compound :
  (forall d, P d -> select_cid (cid compound) d = None ->
             I (sql_insert_compound compound d)) ->
  (forall d name, I d -> select_name_id name d = None ->
                  I (sql_insert_trivial_name name d)) ->
  (forall d name n, I d -> select_name_id name d = Some n ->
                    str_truthy name = true ->
                    I (sql_insert_cid_name_match (cid compound) n d)) ->
  (forall d, I d -> P d) ->
  hoare (fun w => P (db w)) (add_compound compound)
        (fun _ w => P (db w)).
Proof.
  intros Hcompound Hname Hmatch HIP. unfold add_compound.
  eapply hoare_bind with (R := fun _ w => P (db w)).
  - apply hoare_connect; simpl; auto.
  - intros [|]; [by apply hoare_ret|].
    eapply hoare_bind with
      (R := fun r w => match r with
                       | Ok _ => I (db w)
                       | Raise _ => P (db w)
                       end).
    + apply hoare_connect; simpl; [auto|].
      intros w Hw. destruct (select_cid (cid compound) (db w)) eqn:Hc; auto.
    + intros _. eapply hoare_bind with (R := fun _ w => I (db w)).
      * apply hoare_for_in. intros _ name _.
        eapply hoare_bind with (R := fun _ w => I (db w)).
        -- apply add_trivial_name_keeps; eauto.
        -- intros _. by apply hoare_ret.
        -- auto.
      * intros _. apply hoare_ret. auto.
      * auto.
    + auto.
  - auto.
Qed.

(** *** Primary keys *)

Lemma sql_insert_compound_cids compound d :
  cids_unique d -> select_cid (cid compound) d = None ->
  cids_unique (sql_insert_compound compound d).
Proof.
  unfold cids_unique. intros Hd Hc%select_cid_None. simpl.
  rewrite fmap_app. apply NoDup_app. split; [done|]. split.
  - intros x Hx [->|H]%elem_of_cons; [done|inversion H].
  - apply NoDup_singleton.
Qed.

Lemma sql_insert_cid_name_match_ids c n d :
  match_ids_unique d -> match_ids_unique (sql_insert_cid_name_match c n d).
Proof.
  unfold match_ids_unique. intros Hd. simpl. rewrite fmap_app.
  apply NoDup_app. split; [done|]. split.
  - intros x Hx [->|H]%elem_of_cons; [|inversion H].
    by apply next_rowid_fresh in Hx.
  - apply NoDup_singleton.
Qed.

(** X4. The three primary keys stay unique: if no two Compounds rows share
    a CID, no two TrivialNames rows an ID and no two CIDNameMatches rows
    an ID, the same holds after [add_trivial_name] and after
    [add_compound], whatever fails on the way. *)
Theorem primary_keys_stay_unique w :
  cids_unique (db w) -> ids_unique (db w) -> match_ids_unique (db w) ->
  (forall name c,
     let d := db (add_trivial_name name c w).2 in
     cids_unique d /\ ids_unique d /\ match_ids_unique d) /\
  (forall compound,
     let d := db (add_compound compound w).2 in
     cids_unique d /\ ids_unique d /\ match_ids_unique d).
Proof.
  intros Hc Hn Hm.
  set (I := fun d => cids_unique d /\ ids_unique d /\ match_ids_unique d).
  assert (forall d name, I d -> I (sql_insert_trivial_name name d)) as Hname.
  { intros d name (H1 & H2 & H3). split; [exact H1|].
    split; [by apply sql_insert_trivial_name_ids|exact H3]. }
  assert (forall d c n, I d -> I (sql_insert_cid_name_match c n d)) as Hmatch.
  { intros d c n (H1 & H2 & H3). split; [exact H1|].
    split; [exact H2|by apply sql_insert_cid_name_match_ids]. }
  split.
  - intros name c.
    apply (add_trivial_name_keeps I name c); [auto|auto|by split].
  - intros compound.
    apply (add_compound_keeps I I compound); [|auto|auto|auto|by split].
    intros d (H1 & H2 & H3) Hd. split; [|by split].
    by apply sql_insert_compound_cids.
Qed.

Lemma primary_keys_stay_unique_witness :
  let d := db (add_compound acetone world0).2 in
  cids_unique d /\ ids_unique d /\ match_ids_unique d.
Proof.
  apply (proj2 (primary_keys_stay_unique world0
                  NoDup_nil_2 NoDup_nil_2 NoDup_nil_2) acetone).
Defined.

(** *** Rows are only appended *)

Lemma extends_refl d : extends d d.
Proof. by repeat split. Qed.

(** X5. The store is append-only: after [add_trivial_name] and after
    [add_compound], whatever fails on the way, each table still begins
    with the rows it had, unchanged and in the same order. *)
Theorem store_is_append_only w :
  (forall name c, extends (db w) (db (add_trivial_name name c w).2)) /\
  (forall compound, extends (db w) (db (add_compound compound w).2)).
Proof.
  set (I := fun d => extends (db w) d).
  assert (forall d name, I d -> I (sql_insert_trivial_name name d)) as Hname.
  { intros d name (H1 & H2 & H3). split; [exact H1|].
    split; [by apply prefix_app_r|exact H3]. }
  assert (forall d c n, I d -> I (sql_insert_cid_name_match c n d)) as Hmatch.
  { intros d c n (H1 & H2 & H3). split; [exact H1|].
    split; [exact H2|by apply prefix_app_r]. }
  split.
  - intros name c.
    apply (add_trivial_name_keeps I name c); [auto|auto|apply extends_refl].
  - intros compound.
    apply (add_compound_keeps I I compound);
      [|auto|auto|auto|apply extends_refl].
    intros d (H1 & H2 & H3) _. split; [by apply prefix_app_r|by split].
Qed.

(** *** Link rows point at stored rows *)

Lemma links_resolve_insert_name name d :
  links_resolve d -> links_resolve (sql_insert_trivial_name name d).
Proof.
  unfold links_resolve. simpl. intros Hd r Hr.
  rewrite fmap_app. apply elem_of_app. left. auto.
Qed.

Lemma links_resolve_insert_match c name n d :
  links_resolve d -> select_name_id name d = Some n ->
  links_resolve (sql_insert_cid_name_match c n d).
Proof.
  unfold links_resolve. simpl.
  intros Hd Hn%select_name_id_Some r [Hr|Hr]%elem_of_app; [auto|].
  apply list_elem_of_singleton in Hr as ->. simpl.
  apply list_elem_of_fmap. by exists {| ID := n; Name := name |}.
Qed.

(** X6. No link row is left dangling by the store: if every link row
    names the ID of a TrivialNames row, it still does after
    [add_trivial_name] and after [add_compound], whatever fails; and if
    every link row names the CID of a Compounds row, it still does after
    [add_compound]. *)
Theorem links_stay_resolved w :
  (links_resolve (db w) ->
   (forall name c, links_resolve (db (add_trivial_name name c w).2)) /\
   (forall compound, links_resolve (db (add_compound compound w).2))) /\
  (links_have_compound (db w) ->
   forall compound, links_have_compound (db (add_compound compound w).2)).
Proof.
  split.
  - intros Hw. split.
    + intros name c. apply (add_trivial_name_keeps links_resolve name c);
        eauto using links_resolve_insert_name, links_resolve_insert_match.
    + intros compound.
      apply (add_compound_keeps links_resolve links_resolve compound);
        eauto using links_resolve_insert_name, links_resolve_insert_match.
  - intros Hw compound.
    apply (add_compound_keeps links_have_compound
             (fun d => links_have_compound d /\
                       cid compound ∈ CID <$> Compounds d) compound);
      [| | |tauto|exact Hw].
    + intros d Hd _. unfold links_have_compound. simpl.
      rewrite fmap_app. split.
      * intros r Hr. apply elem_of_app. left. auto.
      * apply elem_of_app. right. left.
    + intros d name [Hd Hc] _. by split.
    + intros d name n [Hd Hc] _ _. split; [|exact Hc].
      unfold links_have_compound. simpl.
      intros r [Hr|Hr]%elem_of_app; [auto|].
      by apply list_elem_of_singleton in Hr as ->.
Qed.

Lemma links_stay_resolved_witness :
  links_resolve (db (add_compound acetone world0).2) /\
  links_have_compound (db (add_compound acetone world0).2).
Proof.
  destruct (links_stay_resolved world0) as [Hresolve Hcompound]. split.
  - apply Hresolve. intros r Hr. inversion Hr.
  - apply Hcompound. intros r Hr. inversion Hr.
Defined.

(** *** What the result of add_compound says *)

Lemma select_cid_Some_eq c d x : select_cid c d = Some x -> x = c.
Proof.
  unfold select_cid. intros (r & Hr & ->)%fmap_Some.
  by apply head_filter_Some in Hr as [_ Heq%Z.eqb_eq].
Qed.

Lemma select_cid_insert_same compound d :
  select_cid (cid compound) d = None ->
  select_cid (cid compound) (sql_insert_compound compound d) =
  Some (cid compound).
Proof.
  unfold select_cid. intros Hd%fmap_None. simpl.
  rewrite List.filter_app.
  destruct (List.filter _ (Compounds d)); [|discriminate].
  simpl. by rewrite Z.eqb_refl.
Qed.

Lemma add_compound_outcome compound w :
  match (add_compound compound w).1 with
  | Ok true =>
      select_cid (cid compound) (db w) = None /\
      select_cid (cid compound) (db (add_compound compound w).2) =
      Some (cid compound)
  | Ok false =>
      select_cid (cid compound) (db w) = Some (cid compound) /\
      db (add_compound compound w).2 = db w
  | Raise _ => True
  end.
Proof.
  set (c := cid compound). set (d0 := db w).
  set (Q := fun (r : outcome bool) (w' : world) =>
              match r with
              | Ok true =>
                  select_cid c d0 = None /\ select_cid c (db w') = Some c
              | Ok false => select_cid c d0 = Some c /\ db w' = d0
              | Raise _ => True
              end).
  enough (hoare (fun w0 => db w0 = d0) (add_compound compound) Q) as H
    by exact (H w eq_refl).
  unfold add_compound. fold c.
  eapply hoare_bind with
    (R := fun r w' => match r with
                      | Ok true => db w' = d0 /\ select_cid c d0 = Some c
                      | Ok false => db w' = d0 /\ select_cid c d0 = None
                      | Raise _ => True
                      end).
  - apply hoare_connect; simpl; [done|].
    intros w' ->. destruct (select_cid c d0) as [x|] eqn:Hx; [|done].
    by apply select_cid_Some_eq in Hx as ->.
  - intros [|].
    + apply hoare_ret. intros w' [Hd Hc]. by split.
    + set (I := fun w' => select_cid c d0 = None /\
                          select_cid c (db w') = Some c).
      eapply hoare_bind with
        (R := fun r w' => match r with
                          | Ok _ => I w'
                          | Raise _ => True
                          end).
      * apply hoare_connect; simpl; [done|].
        intros w' [Hd Hc]. rewrite Hd. fold c. rewrite Hc.
        split; [exact Hc|]. simpl. by apply select_cid_insert_same.
      * intros _. eapply hoare_bind with (R := fun _ w' => I w').
        -- apply hoare_for_in. intros _ name _.
           eapply hoare_bind with (R := fun _ w' => I w').
           ++ apply (add_trivial_name_keeps
                       (fun d => select_cid c d0 = None /\
                                 select_cid c d = Some c)); auto.
           ++ intros _. by apply hoare_ret.
           ++ auto.
        -- intros _. by apply hoare_ret.
        -- done.
      * done.
  - done.
Qed.

(** X7. The result of [add_compound] tells what happened to the store,
    whatever failed on the way: [true] only if the CID was not stored
    before and is stored after; [false] only if the CID was already
    stored, and then no table has changed. *)
Theorem add_compound_result_meaning compound w :
  match (add_compound compound w).1 with
  | Ok true =>
      select_cid (cid compound) (db w) = None /\
      select_cid (cid compound) (db (add_compound compound w).2) =
      Some (cid compound)
  | Ok false =>
      select_cid (cid compound) (db w) = Some (cid compound) /\
      db (add_compound compound w).2 = db w
  | Raise _ => True
  end.
Proof. apply add_compound_outcome. Qed.

(** *** The queries and the inserts, one at a time *)

(** X8. [get_max_cid] never changes a table.  When its block does not
    fail it returns [None] exactly when Compounds has no row, and
    otherwise a CID that is stored and that no stored CID exceeds; when
    its block fails it raises. *)
Theorem get_max_cid_largest w :
  db (get_max_cid w).2 = db w /\
  (fault_at 0 w = true -> (get_max_cid w).1 = Raise OperationalError) /\
  (fault_at 0 w = false ->
   exists m,
     (get_max_cid w).1 = Ok m /\
     (m = None <-> Compounds (db w) = []) /\
     forall x, m = Some x ->
       x ∈ CID <$> Compounds (db w) /\
       forall c, c ∈ CID <$> Compounds (db w) -> c <= x).
Proof.
  unfold get_max_cid, connect, fault_at.
  destruct (faults w) as [|[|] fs]; simpl;
    (split; [reflexivity|]); (split; [done|]); try done;
    intros _; exists (select_max_cid (db w));
    (split; [reflexivity|]); (split; [|apply select_max_cid_spec]);
    unfold select_max_cid; by destruct (Compounds (db w)).
Qed.

Lemma foldr_max_snoc (b x : Z) (l : list Z) :
  foldr Z.max b (l ++ [x]) = Z.max (foldr Z.max b l) x.
Proof.
  induction l as [|y l IH]; simpl; [lia|]. rewrite IH. lia.
Qed.

Lemma select_max_cid_insert compound d :
  select_max_cid (sql_insert_compound compound d) =
  Some match select_max_cid d with
       | Some m => Z.max m (cid compound)
       | None => cid compound
       end.
Proof.
  unfold select_max_cid. simpl. destruct (Compounds d) as [|r rows]; simpl.
  - reflexivity.
  - rewrite fmap_app.
    change (CID <$> [{| CID := cid compound; IUPAC := iupac_name compound;
                        Smiles := smiles compound |}])
      with [cid compound].
    by rewrite foldr_max_snoc.
Qed.



Lemma select_name_id_insert name d :
  select_name_id name (sql_insert_trivial_name name d) =
  Some match select_name_id name d with
       | Some j => j
       | None => next_rowid (seq_TrivialNames d) (ID <$> TrivialNames d)
       end.
Proof.
  unfold select_name_id, sql_insert_trivial_name. simpl.
  rewrite List.filter_app. simpl. rewrite String.eqb_refl.
  by destruct (List.filter _ (TrivialNames d)).
Qed.



(** *** add_trivial_name twice, add_compound in full *)

Lemma next_rowid_gt seq (ids : list Z) j : j ∈ ids -> j < next_rowid seq ids.
Proof. intros Hj%foldr_max_ge. unfold next_rowid. lia. Qed.



Lemma names_added_all_named c names : forall d name,
  name ∈ names -> is_Some (select_name_id name (names_added c names d)).
Proof.
  induction names as [|m names IH]; intros d name Hin; [inversion Hin|].
  change (names_added c (m :: names) d)
    with (names_added c names (match_added c m (name_added m d))).
  apply elem_of_cons in Hin as [->|Hin]; [|by apply IH].
  destruct (name_linked c m d) as (e1 & i & _ & Hi & _).
  destruct (names_added_spec c names (match_added c m (name_added m d)))
    as (e2 & _ & Hnames & _).
  exists i. eapply select_name_id_stable; [exact Hnames|exact Hi].
Qed.



(** *** The store fails only when a block fails *)

Lemma hoare_connect_no_fault {A} (P : world -> Prop)
    (stmt : database -> outcome (A * database))
    (Q : outcome A -> world -> Prop) :
  (forall w, P w -> no_fault w) ->
  (forall w, P w ->
     match stmt (db w) with
     | Ok (a, d) => Q (Ok a) (set_db d (set_faults (tail (faults w)) w))
     | Raise e => Q (Raise e) (set_faults (tail (faults w)) w)
     end) ->
  hoare P (connect stmt) Q.
Proof.
  unfold hoare, connect, no_fault. intros Hf Hs w HP.
  specialize (Hf w HP). specialize (Hs w HP).
  destruct (faults w) as [|[|] fs]; simpl in *;
    [|exfalso; apply Hf; left|];
    destruct (stmt (db w)) as [[a d]|e]; simpl; auto.
Qed.

Lemma no_fault_tail w : no_fault w -> no_fault (set_faults (tail (faults w)) w).
Proof.
  unfold no_fault. simpl. intros H Hin. apply H.
  destruct (faults w); [done|by right].
Qed.

Lemma hoare_for_in_returns {A S} (I : world -> Prop) (l : list A)
    (body : S -> A -> M S) :
  (forall acc x, hoare I (body acc x)
                   (fun r w => I w /\ exists acc', r = Ok acc')) ->
  forall acc, hoare I (for_in l body acc)
                (fun r w => I w /\ exists acc', r = Ok acc').
Proof.
  intros Hbody. induction l as [|x l IH]; intros acc; simpl.
  - apply hoare_ret. eauto.
  - eapply hoare_bind.
    + apply Hbody.
    + intros acc'. eapply hoare_conseq; [|apply IH|auto].
      by intros w [Hw _].
    + intros e w [_ [acc' [=]]].
Qed.

Lemma add_trivial_name_returns name c :
  hoare no_fault (add_trivial_name name c)
        (fun r w => no_fault w /\ exists inserted, r = Ok inserted).
Proof.
  unfold add_trivial_name.
  eapply hoare_bind with
    (R := fun r w => no_fault w /\
                     exists found, r = Ok found /\
                       (found = true ->
                        is_Some (select_name_id name (db w)))).
  - apply hoare_connect_no_fault; [done|]. simpl.
    intros w HNF. split; [exact (no_fault_tail _ HNF)|].
    destruct (select_name_id name (db w)); eexists;
      (split; [reflexivity|]); [eauto|done].
  - intros found. eapply hoare_bind with
      (R := fun r w => no_fault w /\ (exists inserted, r = Ok inserted) /\
                       is_Some (select_name_id name (db w))).
    + destruct found; simpl.
      * apply hoare_ret. intros w (Hw & b & [= <-] & Hb). eauto.
      * eapply hoare_bind with
          (R := fun r w => no_fault w /\ (exists u, r = Ok u) /\
                           is_Some (select_name_id name (db w))).
        -- apply hoare_connect_no_fault; [tauto|]. simpl.
           intros w [HNF _]. split; [exact (no_fault_tail _ HNF)|].
           split; [eauto|]. rewrite select_name_id_insert. eauto.
        -- intros ?. apply hoare_ret. intros w (Hw & _ & Hn). eauto.
        -- intros e w (_ & [u [=]] & _).
    + intros inserted. eapply hoare_bind with
        (R := fun r w => no_fault w /\ exists i, r = Ok (Some i)).
      * apply hoare_connect_no_fault; [tauto|]. simpl.
        intros w (HNF & _ & [i Hi]). split; [exact (no_fault_tail _ HNF)|].
        rewrite Hi. eauto.
      * intros name_id. eapply hoare_bind with
          (R := fun r w => no_fault w /\ exists u, r = Ok u).
        -- destruct (str_truthy name).
           ++ apply hoare_connect_no_fault; [tauto|]. simpl.
              intros w (HNF & i & [= ->]).
              split; [exact (no_fault_tail _ HNF)|].
              eauto.
           ++ apply hoare_ret. intros w [Hw _]. eauto.
        -- intros ?. apply hoare_ret. intros w [Hw _]. eauto.
        -- intros e w [_ [u [=]]].
      * intros e w [_ [i [=]]].
    + intros e w (_ & [u [=]] & _).
  - intros e w (_ & found & [=] & _).
Qed.



(** * Further properties of the ingestion loop *)

Lemma add_compound_keeps_stored compound c :
  hoare (fun w => select_cid c (db w) = Some c) (add_compound compound)
        (fun _ w => select_cid c (db w) = Some c).
Proof.
  apply (add_compound_keeps (fun d => select_cid c d = Some c)
           (fun d => select_cid c d = Some c)); auto.
  intros d Hd _. unfold select_cid in *. simpl.
  apply fmap_Some in Hd as (r & Hr & Hc). apply fmap_Some. exists r.
  split; [by apply head_filter_app|exact Hc].
Qed.

Section IngestionFurther.

Variable pubchem : Z -> option pcp_Compound.
Variable tuple_of_set : list string -> list string.

Local Notation "'body'" := (run_cids_body pubchem tuple_of_set).
Local Notation "'fetch'" := (fetched pubchem tuple_of_set).
Local Notation "'unfetched'" := (not_fetched pubchem tuple_of_set).


(** One turn of the loop, by the record of the identifier and the result
    of [add_compound]. *)
Lemma run_cids_body_eq broken_cids c w :
  exists out,
    body broken_cids c w =
    match fetch c with
    | None =>
        (Ok (broken_cids ++ [c]), say [CidNotAdded c] (say out (asked c w)))
    | Some compound =>
        match add_compound compound (say out (asked c w)) with
        | (Ok true, w2) => (Ok broken_cids, say [CidOk c] w2)
        | (Ok false, w2) =>
            (Ok (broken_cids ++ [c]), say [CidNotAdded c] w2)
        | (Raise e, w2) =>
            (Ok (broken_cids ++ [c]),
             say [CidNotAdded c] (say [ErrorWriting e] w2))
        end
    end.
Proof.
  destruct (get_compound_fetched pubchem tuple_of_set c w) as [out Hget].
  exists out. unfold run_cids_body. erewrite bind_Ok by exact Hget.
  change {| db := db w; faults := faults w; requests := requests w ++ [c];
            stdout := stdout w ++ out |} with (say out (asked c w)).
  destruct (fetch c) as [compound|]; [|reflexivity].
  unfold bind at 1, try_except.
  destruct (add_compound compound (say out (asked c w))) as [[[|]|e] w2];
    reflexivity.
Qed.

(** A turn of the loop removes no Compounds row. *)
Lemma run_cids_body_keeps_stored c0 broken_cids c :
  hoare (fun w => select_cid c0 (db w) = Some c0) (body broken_cids c)
        (fun _ w => select_cid c0 (db w) = Some c0).
Proof.
  intros w Hw. destruct (run_cids_body_eq broken_cids c w) as [out ->].
  destruct (fetch c) as [compound|]; [|exact Hw].
  pose proof (add_compound_keeps_stored compound c0 (say out (asked c w)) Hw)
    as H.
  destruct (add_compound compound (say out (asked c w))) as [[[|]|e] w2];
    exact H.
Qed.

(** What a turn of the loop says about its identifier. *)
Lemma run_cids_body_outcome broken_cids c w :
  exists w',
    (body broken_cids c w = (Ok (broken_cids ++ [c]), w') \/
     body broken_cids c w = (Ok broken_cids, w') /\
     fetch c <> None /\
     select_cid c (db w) = None /\ select_cid c (db w') = Some c).
Proof.
  destruct (run_cids_body_eq broken_cids c w) as [out ->].
  destruct (fetch c) as [compound|] eqn:Hc; [|eauto].
  pose proof (add_compound_outcome compound (say out (asked c w)))
    as H.
  rewrite (fetched_cid _ _ _ _ Hc) in H.
  destruct (add_compound compound (say out (asked c w))) as [[[|]|e] w2];
    eauto.
Qed.

Lemma for_in_body_outcomes l : forall acc w,
  NoDup l ->
  exists broken w',
    for_in l body acc w = (Ok (acc ++ broken), w') /\
    broken `sublist_of` l /\
    forall c, c ∈ l -> c ∉ broken ->
      fetch c <> None /\ select_cid c (db w') = Some c.
Proof.
  induction l as [|c l IH]; intros acc w Hl.
  - exists [], w. simpl. rewrite app_nil_r. split; [done|].
    split; [done|]. intros c Hc. inversion Hc.
  - apply NoDup_cons in Hl as [Hc Hl].
    destruct (run_cids_body_outcome acc c w) as [w1 Hbody].
    cbn [for_in]. destruct Hbody as [Hbody|(Hbody & Hf & _ & Hstored)].
    + destruct (IH (acc ++ [c]) w1 Hl) as (broken & w' & Hloop & Hsub & Hok).
      exists (c :: broken), w'. erewrite bind_Ok by exact Hbody.
      rewrite Hloop, <- app_assoc. split; [done|].
      split; [by apply sublist_skip|].
      intros x [->|Hx]%elem_of_cons Hnot.
      * exfalso. apply Hnot. left.
      * apply Hok; [done|]. intros Hin. apply Hnot. by right.
    + destruct (IH acc w1 Hl) as (broken & w' & Hloop & Hsub & Hok).
      exists broken, w'. erewrite bind_Ok by exact Hbody.
      split; [exact Hloop|]. split; [by apply sublist_cons|].
      intros x [->|Hx]%elem_of_cons Hnot; [|by apply Hok].
      split; [exact Hf|].
      pose proof (hoare_for_in (fun w => select_cid c (db w) = Some c)
                    l body
                    (fun acc x _ => run_cids_body_keeps_stored c acc x)
                    acc w1 Hstored) as H.
      by rewrite Hloop in H.
Qed.

(** X15. The not-added list of the loop is a sublist of the range: its
    identifiers are in ascending order and none occurs twice.  Every
    identifier of the range that is not in it was fetched as a compound
    and has its Compounds row after the loop, whatever failed later. *)
Theorem run_cids_loop_outcomes start_cid count w :
  exists broken_cids w',
    run_cids_loop pubchem tuple_of_set start_cid count w =
    (Ok broken_cids, w') /\
    broken_cids `sublist_of` seqZ start_cid count /\
    forall c, c ∈ seqZ start_cid count -> c ∉ broken_cids ->
      fetch c <> None /\ select_cid c (db w') = Some c.
Proof.
  destruct (for_in_body_outcomes (seqZ start_cid count) [] w
              (NoDup_seqZ _ _)) as (broken & w' & Hloop & Hsub & Hok).
  by exists broken, w'.
Qed.

(** [run_cids] once its two first blocks have not failed: the loop, then
    the report. *)
Lemma run_cids_unfold count w broken_cids w1 :
  fault_at 0 w = false -> fault_at 1 w = false ->
  let start_cid := start_after (select_max_cid (db w)) in
  run_cids_loop pubchem tuple_of_set start_cid count
    {| db := db w; faults := tail (tail (faults w));
       requests := requests w;
       stdout := (stdout w ++ [RunStarting]) ++
                 [FromCount start_cid count] |} = (Ok broken_cids, w1) ->
  let n := Z.of_nat (List.length broken_cids) in
  run_cids pubchem tuple_of_set count w =
  (Ok tt,
   match broken_cids with
   | [] => say [ReportLine (count - n) n] (say [RunFinished] w1)
   | _ => say [BrokenCids broken_cids]
            (say [ReportLine (count - n) n] (say [RunFinished] w1))
   end).
Proof.
  destruct w as [d fs rq out]. unfold fault_at. simpl. intros H0 H1 Hloop.
  assert (connect (fun d => Ok (tt, d))
            {| db := d; faults := fs; requests := rq;
               stdout := out ++ [RunStarting] |} =
          (Ok tt, {| db := d; faults := tail fs; requests := rq;
                     stdout := out ++ [RunStarting] |}) /\
          connect (fun d => Ok (select_max_cid d, d))
            {| db := d; faults := tail fs; requests := rq;
               stdout := out ++ [RunStarting] |} =
          (Ok (select_max_cid d),
           {| db := d; faults := tail (tail fs); requests := rq;
              stdout := out ++ [RunStarting] |})) as (Hcreate & Hmax).
  { destruct fs as [|[|] [|[|] fs]]; try discriminate; split; reflexivity. }
  unfold run_cids.
  erewrite bind_Ok by reflexivity.
  erewrite bind_Ok by exact Hcreate.
  erewrite bind_Ok by exact Hmax.
  erewrite bind_Ok by reflexivity.
  erewrite bind_Ok by exact Hloop.
  erewrite bind_Ok by reflexivity.
  erewrite bind_Ok by reflexivity.
  by destruct broken_cids.
Qed.

(** X16. The report of a run.  When the two blocks before the loop do not
    fail, the run prints, after the lines of the loop, the line of the
    counts and then the not-added list, the list only when it is not
    empty.  The two counts add up to [count], and the not-added count is
    the length of the list, at most [count] when [count] is not
    negative. *)
Theorem run_cids_report count w :
  fault_at 0 w = false -> fault_at 1 w = false ->
  exists broken_cids w1 w',
    run_cids_loop pubchem tuple_of_set
      (start_after (select_max_cid (db w))) count
      {| db := db w; faults := tail (tail (faults w));
         requests := requests w;
         stdout := (stdout w ++ [RunStarting]) ++
                   [FromCount (start_after (select_max_cid (db w)))
                      count] |} = (Ok broken_cids, w1) /\
    run_cids pubchem tuple_of_set count w = (Ok tt, w') /\
    db w' = db w1 /\
    exists ok not_added,
      stdout w' =
      stdout w1 ++
      RunFinished :: ReportLine ok not_added ::
      match broken_cids with
      | [] => []
      | _ => [BrokenCids broken_cids]
      end /\
      ok + not_added = count /\
      not_added = Z.of_nat (List.length broken_cids) /\
      0 <= not_added <= Z.max 0 count.
Proof.
  intros H0 H1.
  destruct (for_in_body_outcomes
              (seqZ (start_after (select_max_cid (db w))) count) []
              {| db := db w; faults := tail (tail (faults w));
                 requests := requests w;
                 stdout := (stdout w ++ [RunStarting]) ++
                           [FromCount (start_after (select_max_cid (db w)))
                              count] |} (NoDup_seqZ _ _))
    as (broken & w1 & Hloop & Hsub & _).
  change ([] ++ broken) with broken in Hloop.
  exists broken, w1. eexists. split; [exact Hloop|].
  split; [by apply run_cids_unfold|].
  split; [by destruct broken|].
  exists (count - Z.of_nat (List.length broken)),
    (Z.of_nat (List.length broken)).
  split; [destruct broken; simpl; by rewrite <- !app_assoc|].
  split; [lia|]. split; [done|].
  apply sublist_length in Hsub. rewrite length_seqZ in Hsub. lia.
Qed.

(** X17. A run never asks for a stored compound: when the two blocks
    before the loop do not fail, every identifier the run asks for is
    larger than every stored CID, and so has no Compounds row when the
    run starts. *)
Theorem run_cids_asks_beyond_stored count w :
  fault_at 0 w = false -> fault_at 1 w = false ->
  exists w' new_requests,
    run_cids pubchem tuple_of_set count w = (Ok tt, w') /\
    requests w' = requests w ++ new_requests /\
    forall c, c ∈ new_requests ->
      select_cid c (db w) = None /\
      forall m, m ∈ CID <$> Compounds (db w) -> m < c.
Proof.
  intros H0 H1.
  destruct (run_cids_returns pubchem tuple_of_set count w H0 H1)
    as (broken & w1 & w' & _ & Hrun & _ & Hrq & _).
  exists w', (seqZ (start_after (select_max_cid (db w))) count).
  split; [exact Hrun|]. split; [exact Hrq|].
  intros c Hc. split; [by eapply range_not_stored|].
  intros m Hm. apply elem_of_seqZ in Hc as [Hc _].
  destruct (select_max_cid (db w)) as [x|] eqn:Hmax.
  - apply select_max_cid_spec in Hmax as [_ Hle]. specialize (Hle m Hm).
    simpl in Hc. destruct (Z.eqb_spec x 0); lia.
  - unfold select_max_cid in Hmax.
    destruct (Compounds (db w)); [inversion Hm|discriminate].
Qed.

(** X18. A run of no identifier.  When [count] is zero or negative and
    the two blocks before the loop do not fail, the run asks for nothing,
    changes no table, and prints its four lines; the OK figure of the
    report is [count] itself. *)
Theorem run_cids_empty_range count w :
  count <= 0 -> fault_at 0 w = false -> fault_at 1 w = false ->
  exists w',
    run_cids pubchem tuple_of_set count w = (Ok tt, w') /\
    db w' = db w /\ requests w' = requests w /\
    stdout w' =
    stdout w ++
    [RunStarting; FromCount (start_after (select_max_cid (db w))) count;
     RunFinished; ReportLine count 0].
Proof.
  intros Hcount H0 H1. eexists. split.
  - apply run_cids_unfold with (broken_cids := []); [done|done|].
    unfold run_cids_loop. by rewrite seqZ_nil.
  - simpl. rewrite Z.sub_0_r, <- !app_assoc. done.
Qed.

Lemma for_in_body_no_faults l : forall acc w,
  faults w = [] -> NoDup l ->
  (forall c, c ∈ l -> select_cid c (db w) = None) ->
  exists w',
    for_in l body acc w = (Ok (acc ++ unfetched l), w') /\
    faults w' = [] /\
    Compounds (db w') =
    Compounds (db w) ++ omap (fun c => row_of <$> fetch c) l.
Proof.
  induction l as [|c l IH]; intros acc w Hf Hl Hfresh.
  - exists w. simpl. by rewrite !app_nil_r.
  - apply NoDup_cons in Hl as [Hc Hl].
    destruct (run_cids_body_eq acc c w) as [out Hbody].
    unfold not_fetched in *. cbn [for_in List.filter omap list_omap].
    change (list_omap Z compounds_row (fun c => row_of <$> fetch c) l)
      with (omap (fun c => row_of <$> fetch c) l).
    destruct (fetch c) as [compound|] eqn:Hfc.
    + rewrite add_compound_no_faults in Hbody; cycle 1.
      { exact Hf. }
      { rewrite (fetched_cid _ _ _ _ Hfc). apply Hfresh. left. }
      erewrite bind_Ok by exact Hbody.
      match type of Hbody with _ = (_, ?x) => set (w1 := x) in * end.
      assert (Compounds (db w1) = Compounds (db w) ++ [row_of compound])
        as Hrows by (unfold w1; simpl; by rewrite Compounds_names_added).
      destruct (IH acc w1) as (w' & Hloop & Hf' & Hrows');
        [exact Hf|exact Hl| |].
      { intros c' Hc'. apply select_cid_None. rewrite Hrows, fmap_app.
        intros [Hin|Hin]%elem_of_app.
        - specialize (Hfresh c' ltac:(by right)).
          by apply select_cid_None in Hfresh.
        - apply list_elem_of_singleton in Hin. simpl in Hin.
          rewrite (fetched_cid _ _ _ _ Hfc) in Hin. by subst. }
      exists w'. split; [exact Hloop|]. split; [exact Hf'|].
      rewrite Hrows', Hrows, <- app_assoc. reflexivity.
    + erewrite bind_Ok by exact Hbody.
      destruct (IH (acc ++ [c]) (say [CidNotAdded c] (say out (asked c w))))
        as (w' & Hloop & Hf' & Hrows'); [exact Hf|exact Hl| |].
      { intros c' Hc'. apply Hfresh. by right. }
      exists w'. rewrite Hloop, <- app_assoc. by repeat split.
Qed.


End IngestionFurther.

(** *** The run-level properties at concrete inputs *)

Lemma run_cids_report_witness :
  exists (broken_cids : list Z) w' ok not_added,
    run_cids pubchem_example remove_dups 3 world0 = (Ok tt, w') /\
    ok + not_added = 3 /\
    not_added = Z.of_nat (List.length broken_cids) /\
    0 <= not_added <= 3.
Proof.
  destruct (run_cids_report pubchem_example remove_dups 3 world0
              eq_refl eq_refl)
    as (broken & w1 & w' & _ & Hrun & _ & ok & na & _ & Hsum & Hna & Hb).
  exists broken, w', ok, na. exact (conj Hrun (conj Hsum (conj Hna Hb))).
Defined.

Lemma run_cids_asks_beyond_stored_witness :
  let w := set_db (sql_insert_compound acetone empty_database) world0 in
  exists w' new_requests,
    run_cids pubchem_example remove_dups 3 w = (Ok tt, w') /\
    requests w' = requests w ++ new_requests /\
    forall c, c ∈ new_requests ->
      select_cid c (db w) = None /\
      forall m, m ∈ CID <$> Compounds (db w) -> m < c.
Proof.
  exact (run_cids_asks_beyond_stored pubchem_example remove_dups 3
           (set_db (sql_insert_compound acetone empty_database) world0)
           eq_refl eq_refl).
Defined.

Lemma run_cids_empty_range_witness :
  exists w',
    run_cids pubchem_example remove_dups 0 world0 = (Ok tt, w') /\
    db w' = db world0 /\ requests w' = requests world0 /\
    stdout w' =
    stdout world0 ++
    [RunStarting; FromCount (start_after (select_max_cid (db world0))) 0;
     RunFinished; ReportLine 0 0].
Proof.
  exact (run_cids_empty_range pubchem_example remove_dups 0 world0
           (Z.le_refl 0) eq_refl eq_refl).
Defined.

